(** * Backpack Bot: the permit sniper

    A shallow embedding of the job scheduling and acquisition engine of
    packages/server/src/services/sniper.ts, with the checks of the create
    route and the DELETE route of packages/server/src/routes/sniper.ts.

    The repository holds two revisions of the service.  They share the
    availability query, the cancellation path and the engine; they differ in
    where credentials come from:
    - [EnvCredentials]: services/sniper.ts reads RECGOV_EMAIL and
      RECGOV_PASSWORD from the process environment ([getRecgovCredentials]);
    - [CredentialTable]: the revision that keeps a [credentials] map keyed by
      job id, filled by [createJob] and [supplyCredentials].
    Definitions that differ between the two take the revision as a parameter.

    How the code is modelled:
    - job objects live in a heap and are held by reference, by the [jobs] map,
      by timer callbacks and by running engines, as in the source;
    - an asynchronous function runs from one await to the next in one step;
      between two steps any other function may run.  What an awaited promise
      settles to (a fetch, a browser operation, a file operation) is an input
      of the step;
    - the steps that drive the page (sign-in, navigation, group size, the
      claim) are opaque: only whether they resolve or reject matters here;
    - the clock is an input as well: it only moves by [Tick].
    Not modelled: cleanupAllSniper (process shutdown), getJob and getJobs
    beyond the list they copy, and the log. *)

From Stdlib Require Import ZArith String Ascii List Lia Bool.
From stdpp Require Import base option list strings gmap pretty.

Local Open Scope string_scope.
Local Open Scope Z_scope.
Local Open Scope list_scope.

(** ** The JavaScript platform

    [Date] parsing and ISO rendering belong to the JavaScript engine, not to
    the repository.  A [Date] object is its time value: milliseconds since the
    epoch, or NaN for an Invalid Date.  The embedding takes both functions as
    an interface; [Iso8601.platform] below is an executable instance that
    reads the date-time format of ECMAScript the way V8 does. *)

Class Platform := {
  (** [new Date(s).getTime()]; [None] is NaN (Invalid Date). *)
  Date_parse : string → option Z;
  (** [d.toISOString()] for a valid time value. *)
  Date_toISOString : Z → string;
}.

(** One UTC calendar day, in milliseconds.  [setUTCDate(getUTCDate() + 1)]
    moves a time value forward by exactly this amount. *)
Definition msPerDay : Z := 86400000.

(** Completion of a call that may throw. *)
Inductive Completion (A : Type) : Type :=
| Returned (a : A)
| Thrown (msg : string).
Arguments Returned {A} a.
Arguments Thrown {A} msg.

(** ** Types of the service *)

Record DateRange := {
  startDate : string;  (* YYYY-MM-DD (entry date) *)
  endDate : string;    (* YYYY-MM-DD (exit date) *)
}.

Inductive SniperStatus :=
| pending | pre_warming | watching | booking | in_cart | failed | cancelled.

Record SniperJob := {
  id : string;
  permitId : string;
  permitName : string;
  divisionId : string;
  desiredDateRanges : list DateRange;  (* in priority order *)
  groupSize : Z;
  windowOpensAt : string;              (* ISO timestamp *)
  status : SniperStatus;
  attempts : Z;
  message : string;
  bookedRange : option DateRange;
  createdAt : string;
  updatedAt : string;
}.

#[global] Instance DateRange_eq_dec : EqDecision DateRange.
Proof. solve_decision. Defined.
#[global] Instance SniperStatus_eq_dec : EqDecision SniperStatus.
Proof. solve_decision. Defined.

(** ** Constants *)

Definition PRE_WARM_LEAD_MS : Z := 2 * 60 * 1000.
Definition POLL_INTERVAL_MS : Z := 1500.
Definition MAX_WATCH_DURATION_MS : Z := 5 * 60 * 1000.
Definition RECGOV_API : string := "https://www.recreation.gov/api/permits".

(** ** Availability polling *)

(** One cell of the availability payload. *)
Record DateAvailability := { remaining : Z; total : Z }.

(** How the [fetch] of [checkAvailability], followed by [res.json()], settles.
    [Body] carries [payload.availability]: per division id, the entries of
    [date_availability] in property order. *)
Inductive FetchOutcome :=
| NetworkFailure (msg : string)   (* fetch rejected *)
| HttpError (status : Z)          (* !res.ok *)
| BadBody (msg : string)          (* res.json() rejected, or the payload has not the declared shape *)
| Body (availability : gmap string (list (string * DateAvailability))).

(** [Array.prototype.sort] with the default comparison, on strings (by
    code unit; for the ASCII text of dates, by byte). *)
Fixpoint sort_insert (x : string) (l : list string) : list string :=
  match l with
  | [] => [x]
  | y :: l' => if String.leb x y then x :: l else y :: sort_insert x l'
  end.

Definition sort (l : list string) : list string := foldr sort_insert [] l.

Section Availability.
Context {platform : Platform}.

(** The [while (current < end)] loop of [expandRange]; [fuel] bounds the
    number of iterations. *)
Fixpoint expand_loop (fuel : nat) (current end_ : Z) : list string :=
  match fuel with
  | O => []
  | S fuel' =>
      if current <? end_
      then String.substring 0 10 (Date_toISOString current)
             :: expand_loop fuel' (current + msPerDay) end_
      else []
  end.

(** Iterations [expandRange] needs from [current] to [end_]. *)
Definition nights_between (current end_ : Z) : nat :=
  Z.to_nat ((end_ - current + msPerDay - 1) / msPerDay).

(** [expandRange]: every night of the trip, [startDate] inclusive,
    [endDate] exclusive.  A comparison with NaN is false, so an Invalid Date
    on either side leaves the loop without an iteration.  The loop stops
    when [current] reaches [end_]; [nights_between] is the number of
    iterations that takes, so the fuel never runs out first
    ([expand_loop_enough]).  A time value cannot leave the range of Date
    inside the loop: the body runs only while [current < end_]. *)
Definition expandRange (range : DateRange) : list string :=
  match Date_parse (startDate range +:+ "T00:00:00.000Z"),
        Date_parse (endDate range +:+ "T00:00:00.000Z") with
  | Some current, Some end_ =>
      expand_loop (nights_between current end_) current end_
  | _, _ => []
  end.

(** The request URL; [toISOString] throws a RangeError on an Invalid Date.
    Indexing an empty array gives [undefined], which the concatenation
    renders as the text "undefined". *)
Definition queryUrl (permitId : string) (ranges : list DateRange)
  : Completion string :=
  let allStartDates := sort (map startDate ranges) in
  let allEndDates := sort (map endDate ranges) in
  match Date_parse (List.hd "undefined" allStartDates +:+ "T00:00:00.000Z"),
        Date_parse (List.last allEndDates "undefined" +:+ "T00:00:00.000Z") with
  | Some queryStart, Some queryEnd =>
      Returned (RECGOV_API +:+ "/" +:+ permitId
                +:+ "/availability?start_date=" +:+ Date_toISOString queryStart
                +:+ "&end_date=" +:+ Date_toISOString (queryEnd + msPerDay)
                +:+ "&commercial_acct=false")
  | _, _ => Thrown "Invalid time value"
  end.

(** The lookup of date -> remaining. *)
Definition buildAvailByDate (entries : list (string * DateAvailability))
  : gmap string Z :=
  fold_left (λ m e, <[String.substring 0 10 e.1 := remaining e.2]> m) entries ∅.

(** [nights.every((d) => (availByDate.get(d) ?? 0) > 0)] *)
Definition allAvailable (availByDate : gmap string Z) (nights : list string) : bool :=
  forallb (λ d, 0 <? default 0 (availByDate !! d)) nights.

(** The [for (const range of ranges)] loop: ranges in priority order. *)
Fixpoint firstAvailable (availByDate : gmap string Z) (ranges : list DateRange)
  : option DateRange :=
  match ranges with
  | [] => None
  | range :: rest =>
      if allAvailable availByDate (expandRange range)
      then Some range
      else firstAvailable availByDate rest
  end.

(** [data.payload.availability[divisionId]] reads a property, own or
    inherited.  The payload is a plain object made by JSON.parse: when it has
    no own property of that name, the names of Object.prototype still find a
    member (a function, or Object.prototype itself under __proto__), which is
    truthy and has no [date_availability]: [Object.entries(undefined)] then
    throws a TypeError.  Any other name gives [undefined], and
    checkAvailability returns null. *)
Definition Object_prototype_names : list string :=
  [ "constructor"; "hasOwnProperty"; "isPrototypeOf"; "propertyIsEnumerable";
    "toLocaleString"; "toString"; "valueOf"; "__proto__";
    "__defineGetter__"; "__defineSetter__"; "__lookupGetter__"; "__lookupSetter__" ].

Definition checkAvailability (permitId divisionId : string)
    (ranges : list DateRange) (fetch : string → FetchOutcome)
  : Completion (option DateRange) :=
  match queryUrl permitId ranges with
  | Thrown msg => Thrown msg
  | Returned url =>
      match fetch url with
      | NetworkFailure msg => Thrown msg
      | HttpError status => Thrown ("HTTP " +:+ pretty status)
      | BadBody msg => Thrown msg
      | Body availability =>
          match availability !! divisionId with
          | None =>
              if bool_decide (divisionId ∈ Object_prototype_names)
              then Thrown "Cannot convert undefined or null to object"
              else Returned None
          | Some division =>
              Returned (firstAvailable (buildAvailByDate division) ranges)
          end
      end
  end.

End Availability.

(** ** An executable platform instance: Node's Date, in UTC

    [parse] follows the way V8 (the engine of Node) reads the date-time
    format of ECMAScript,
      [+-YY]YYYY[-MM[-DD]][THH:mm[:ss[.s...]][Z|+-HH:mm|+-HHmm]],
    with what V8 allows beyond the standard: a day of the month up to 31
    in any month (30 February runs into March), t and z in lower case, any
    number of digits in the fraction of a second.  A time without zone is
    local time; the zone of the process is UTC here, as in the container image
    of the repository, which sets no TZ.  What is not of this format V8 hands
    to its legacy parser, which is not modelled: [parse] answers [None] for
    it. *)

Module Iso8601.

(** Days since 1970-01-01 of a proleptic Gregorian date.  The day of the
    month enters linearly, as in MakeDay: a day past the end of the month
    counts on into the next month. *)
Definition days_from_civil (y m d : Z) : Z :=
  let y' := if m <=? 2 then y - 1 else y in
  let era := y' / 400 in
  let yoe := y' - era * 400 in
  let mp := (m + 9) mod 12 in
  let doy := (153 * mp + 2) / 5 + d - 1 in
  let doe := yoe * 365 + yoe / 4 - yoe / 100 + doy in
  era * 146097 + doe - 719468.

Definition civil_from_days (z : Z) : Z * Z * Z :=
  let z := z + 719468 in
  let era := z / 146097 in
  let doe := z - era * 146097 in
  let yoe := (doe - doe / 1460 + doe / 36524 - doe / 146096) / 365 in
  let doy := doe - (365 * yoe + yoe / 4 - yoe / 100) in
  let mp := (5 * doy + 2) / 153 in
  let d := doy - (153 * mp + 2) / 5 + 1 in
  let m := if mp <? 10 then mp + 3 else mp - 9 in
  (if m <=? 2 then yoe + era * 400 + 1 else yoe + era * 400, m, d).

Definition days_in_month (y m : Z) : Z :=
  if m =? 2 then
    if ((y mod 4 =? 0) && negb (y mod 100 =? 0)) || (y mod 400 =? 0) then 29 else 28
  else if (m =? 4) || (m =? 6) || (m =? 9) || (m =? 11) then 30 else 31.

Definition digit (c : ascii) : option Z :=
  let n := Z.of_N (N_of_ascii c) in
  if (48 <=? n) && (n <=? 57) then Some (n - 48) else None.

(** Reads exactly [n] decimal digits. *)
Fixpoint number (n : nat) (acc : Z) (s : string) : option (Z * string) :=
  match n with
  | O => Some (acc, s)
  | S n' =>
      match s with
      | String c s' =>
          match digit c with
          | Some v => number n' (10 * acc + v) s'
          | None => None
          end
      | EmptyString => None
      end
  end.

Definition expect (c : ascii) (s : string) : option string :=
  match s with
  | String c' s' => if Ascii.eqb c c' then Some s' else None
  | EmptyString => None
  end.

(** A number of exactly [n] digits.  The scanner takes the longest run of
    digits as one number, so no digit may follow the [n]-th. *)
Definition fixed (n : nat) (s : string) : option (Z * string) :=
  '(v, rest) ← number n 0 s;
  match rest with
  | String c _ => match digit c with Some _ => None | None => Some (v, rest) end
  | EmptyString => Some (v, rest)
  end.

(** The longest run of digits at the head of [s]. *)
Fixpoint digits (s : string) : list Z * string :=
  match s with
  | String c s' =>
      match digit c with
      | Some v => let '(l, rest) := digits s' in (v :: l, rest)
      | None => ([], s)
      end
  | EmptyString => ([], s)
  end.

(** YYYY, or a sign and six digits; -000000 is no year. *)
Definition year (s : string) : option (Z * string) :=
  match s with
  | String "+" s' => fixed 6 s'
  | String "-" s' => '(y, rest) ← fixed 6 s'; if y =? 0 then None else Some (- y, rest)
  | _ => fixed 4 s
  end.

(** [-MM[-DD]]: a month from 1 to 12, a day from 1 to 31. *)
Definition month_day (s : string) : option (Z * Z * string) :=
  match s with
  | String "-" s1 =>
      '(m, s2) ← fixed 2 s1;
      if (1 <=? m) && (m <=? 12) then
        match s2 with
        | String "-" s3 =>
            '(d, s4) ← fixed 2 s3;
            if (1 <=? d) && (d <=? 31) then Some (m, d, s4) else None
        | _ => Some (m, 1, s2)
        end
      else None
  | _ => Some (1, 1, s)
  end.

(** The fraction of a second, at least one digit: its first three digits
    are the milliseconds.  The flag tells whether the number the scanner
    reads (nine digits at most) is above 0. *)
Definition fraction (s : string) : option (Z * bool * string) :=
  let '(ds, rest) := digits s in
  match ds with
  | [] => None
  | _ => Some (100 * nth 0 ds 0 + 10 * nth 1 ds 0 + nth 2 ds 0,
               existsb (λ d, 0 <? d) (take 9 ds), rest)
  end.

(** HH:mm[:ss[.s...]], in milliseconds since midnight; 24:00:00.000 is
    the only time of hour 24. *)
Definition time (s : string) : option (Z * string) :=
  '(hh, s) ← fixed 2 s; s ← expect ":" s;
  '(mm, s) ← fixed 2 s;
  if (24 <? hh) || (59 <? mm) || ((hh =? 24) && (0 <? mm)) then None else
  match s with
  | String ":" s =>
      '(ss, s) ← fixed 2 s;
      if (59 <? ss) || ((hh =? 24) && (0 <? ss)) then None else
      match s with
      | String "." s =>
          '(f, s) ← fraction s;
          if (hh =? 24) && f.2 then None
          else Some (hh * 3600000 + mm * 60000 + ss * 1000 + f.1, s)
      | _ => Some (hh * 3600000 + mm * 60000 + ss * 1000, s)
      end
  | _ => Some (hh * 3600000 + mm * 60000, s)
  end.

(** HH:mm or HHmm after the sign of an offset, in minutes. *)
Definition offset (s : string) : option (Z * string) :=
  match fixed 4 s with
  | Some (hhmm, rest) =>
      if (hhmm / 100 <=? 23) && (hhmm mod 100 <=? 59)
      then Some (hhmm / 100 * 60 + hhmm mod 100, rest) else None
  | None =>
      '(hh, s) ← fixed 2 s; s ← expect ":" s;
      '(mm, s) ← fixed 2 s;
      if (hh <=? 23) && (mm <=? 59) then Some (hh * 60 + mm, s) else None
  end.

(** The zone, in minutes east of UTC; [None] when there is none. *)
Definition zone (s : string) : option (option Z * string) :=
  match s with
  | String "Z" s' | String "z" s' => Some (Some 0, s')
  | String "+" s' => '(o, rest) ← offset s'; Some (Some o, rest)
  | String "-" s' => '(o, rest) ← offset s'; Some (Some (- o), rest)
  | _ => Some (None, s)
  end.

(** TimeClip: a time value is at most 8.64e15 ms away from the epoch. *)
Definition clip (t : Z) : option Z :=
  if (-8640000000000000 <=? t) && (t <=? 8640000000000000) then Some t else None.

Definition parse (s : string) : option Z :=
  '(y, s) ← year s;
  '(md, s) ← month_day s;
  let day := days_from_civil y md.1 md.2 in
  match s with
  | EmptyString => clip (day * msPerDay)                 (* a date alone is UTC *)
  | String c s' =>
      if Ascii.eqb c "T" || Ascii.eqb c "t" then
        '(t, s) ← time s';
        '(o, s) ← zone s;
        if String.eqb s ""
        then clip (day * msPerDay + t - default 0 o * 60000)
        else None
      else None
  end.

Fixpoint zeros (n : nat) : string :=
  match n with O => "" | S n' => "0" +:+ zeros n' end.

Definition pad (width : nat) (n : Z) : string :=
  let s := pretty n in
  zeros (width - String.length s) +:+ s.

Definition toISOString (t : Z) : string :=
  let day := t / msPerDay in
  let r := t mod msPerDay in
  let '(y, m, d) := civil_from_days day in
  let year :=
    if (0 <=? y) && (y <=? 9999) then pad 4 y
    else if y <? 0 then "-" +:+ pad 6 (- y) else "+" +:+ pad 6 y in
  year +:+ "-" +:+ pad 2 m +:+ "-" +:+ pad 2 d +:+ "T"
    +:+ pad 2 (r / 3600000) +:+ ":" +:+ pad 2 (r / 60000 mod 60) +:+ ":"
    +:+ pad 2 (r / 1000 mod 60) +:+ "." +:+ pad 3 (r mod 1000) +:+ "Z".

Definition platform : Platform :=
  {| Date_parse := parse; Date_toISOString := toISOString |}.

End Iso8601.


(** ** In-memory state and the world around it *)

Inductive Revision := EnvCredentials | CredentialTable.

Record Credentials := { email : string; password : string }.

(** What the client sends to create a job.  The credential-table revision
    also carries [email] and [password]. *)
Record SniperJobRequest := {
  req_permitId : string;
  req_permitName : string;
  req_divisionId : string;
  req_desiredDateRanges : list DateRange;
  req_groupSize : Z;
  req_windowOpensAt : string;
  req_email : string;
  req_password : string;
}.

(** The [Partial<SniperJob>] handed to [updateJob]: its call sites set
    [status], [message] and [bookedRange] only. *)
Record Updates := {
  u_status : option SniperStatus;
  u_message : option string;
  u_bookedRange : option (option DateRange);
}.

Definition just_message (m : string) : Updates :=
  {| u_status := None; u_message := Some m; u_bookedRange := None |}.
Definition status_message (s : SniperStatus) (m : string) : Updates :=
  {| u_status := Some s; u_message := Some m; u_bookedRange := None |}.
Definition in_cart_update (r : DateRange) (m : string) : Updates :=
  {| u_status := Some in_cart; u_message := Some m; u_bookedRange := Some (Some r) |}.

(** A [setTimeout] handle held in [timers]: when it is due, the job object
    its callback closes over, and whether it can still fire. *)
Record Timer := { due : Z; timer_job : nat; active : bool }.

(** [saveJobs] awaits twice: [fs.mkdir], then [fs.writeFile] of the list it
    has read off [jobs] in between. *)
Inductive SaveStage :=
| Mkdir
| Writing (list_ : list SniperJob).

(** How an awaited promise settles. *)
Inductive Reply :=
| Resolved
| Rejected (msg : string)
| Fetched (outcome : FetchOutcome)   (* the request of checkAvailability *)
| Claimed (booked : bool).           (* attemptBrowserBooking: "booked" or "failed" *)

(** Where [runSniperJob] is suspended.  Local variables that are live across
    the await are carried by the constructor. *)
Inductive EnginePc :=
| PrewarmSave (s : SaveStage)
| Launching                                   (* chromium.launch *)
| OpeningPage (browser : nat)                 (* browser.newContext, context.newPage *)
| SigningIn
| Navigating                                  (* page.goto of the permit page *)
| SettingGroupSize
| AwaitingWindow (listening : bool) (wake : Z)            (* sleep(waitMs, signal) *)
| WatchSave (s : SaveStage)
| Polling (watchDeadline : Z)                             (* checkAvailability in the watch loop *)
| PollSleep (watchDeadline : Z) (listening : bool) (wake : Z)  (* sleep(POLL_INTERVAL_MS, signal) *)
| NoAvailabilitySave (s : SaveStage)
| BookingSave (foundRange : DateRange) (s : SaveStage)
| Claiming (foundRange : DateRange)                       (* attemptBrowserBooking(foundRange) *)
| InCartSave (s : SaveStage)
| FallbackPolling (fallbackRange : DateRange) (rest : list DateRange)
| FallbackClaiming (fallbackRange : DateRange) (rest : list DateRange)
| ExhaustedSave (s : SaveStage)
| CatchSave (s : SaveStage)
| Closing                                     (* finally: b.browser.close() *)
| Ended.

(** One call of [runSniperJob]: the job object it was given, the [aborted]
    flag of its AbortController, and where it is. *)
Record Engine := { e_job : nat; e_aborted : bool; e_pc : EnginePc }.

Inductive CancelPc :=
| CancelClosing (job : nat)                   (* b.browser.close() *)
| CancelSave (s : SaveStage)
| CancelDone (c : Completion bool).

Inductive DeletePc :=
| DeleteCancelling (c : CancelPc)             (* await cancelJob(id) *)
| DeleteSave (s : SaveStage)
| DeleteDone (c : Completion bool).

Inductive LoadPc :=
| ReadingDisk                                 (* loadJobsFromDisk *)
| SavingLoaded (s : SaveStage)
| Loaded (c : Completion unit).

(** Calls of the asynchronous public functions that are in flight. *)
Inductive Task :=
| TCreate (job : nat) (s : SaveStage)
| TCreated (c : Completion SniperJob)
| TCancel (id_ : string) (pc : CancelPc)
| TDelete (id_ : string) (pc : DeletePc)
| TLoad (pc : LoadPc).

Record State := {
  clock : Z;                                  (* Date.now() *)
  RECGOV_EMAIL : option string;               (* process.env *)
  RECGOV_PASSWORD : option string;
  heap : list SniperJob;                      (* job objects, by reference *)
  jobs : list (string * nat);                 (* Map<string, SniperJob>, in insertion order *)
  credentials : gmap string Credentials;
  timers : gmap string Timer;
  browsers : gmap string nat;
  abortControllers : gmap string nat;         (* the controller of engine number n *)
  engines : list Engine;
  tasks : list Task;
  chromium : list nat;                        (* launched browsers: close() calls received *)
  disk : option (list SniperJob);             (* sniper-jobs.json, if it exists *)
  published : list SniperJob;                 (* snapshots handed to the subscribers *)
}.

Definition set_clock (f : Z → Z) (st : State) : State :=
  Build_State (f (clock st)) (RECGOV_EMAIL st) (RECGOV_PASSWORD st) (heap st) (jobs st) (credentials st) (timers st) (browsers st) (abortControllers st) (engines st) (tasks st) (chromium st) (disk st) (published st).

Definition set_heap (f : list SniperJob → list SniperJob) (st : State) : State :=
  Build_State (clock st) (RECGOV_EMAIL st) (RECGOV_PASSWORD st) (f (heap st)) (jobs st) (credentials st) (timers st) (browsers st) (abortControllers st) (engines st) (tasks st) (chromium st) (disk st) (published st).

Definition set_jobs (f : list (string * nat) → list (string * nat)) (st : State) : State :=
  Build_State (clock st) (RECGOV_EMAIL st) (RECGOV_PASSWORD st) (heap st) (f (jobs st)) (credentials st) (timers st) (browsers st) (abortControllers st) (engines st) (tasks st) (chromium st) (disk st) (published st).

Definition set_credentials (f : gmap string Credentials → gmap string Credentials) (st : State) : State :=
  Build_State (clock st) (RECGOV_EMAIL st) (RECGOV_PASSWORD st) (heap st) (jobs st) (f (credentials st)) (timers st) (browsers st) (abortControllers st) (engines st) (tasks st) (chromium st) (disk st) (published st).

Definition set_timers (f : gmap string Timer → gmap string Timer) (st : State) : State :=
  Build_State (clock st) (RECGOV_EMAIL st) (RECGOV_PASSWORD st) (heap st) (jobs st) (credentials st) (f (timers st)) (browsers st) (abortControllers st) (engines st) (tasks st) (chromium st) (disk st) (published st).

Definition set_browsers (f : gmap string nat → gmap string nat) (st : State) : State :=
  Build_State (clock st) (RECGOV_EMAIL st) (RECGOV_PASSWORD st) (heap st) (jobs st) (credentials st) (timers st) (f (browsers st)) (abortControllers st) (engines st) (tasks st) (chromium st) (disk st) (published st).

Definition set_abortControllers (f : gmap string nat → gmap string nat) (st : State) : State :=
  Build_State (clock st) (RECGOV_EMAIL st) (RECGOV_PASSWORD st) (heap st) (jobs st) (credentials st) (timers st) (browsers st) (f (abortControllers st)) (engines st) (tasks st) (chromium st) (disk st) (published st).

Definition set_engines (f : list Engine → list Engine) (st : State) : State :=
  Build_State (clock st) (RECGOV_EMAIL st) (RECGOV_PASSWORD st) (heap st) (jobs st) (credentials st) (timers st) (browsers st) (abortControllers st) (f (engines st)) (tasks st) (chromium st) (disk st) (published st).

Definition set_tasks (f : list Task → list Task) (st : State) : State :=
  Build_State (clock st) (RECGOV_EMAIL st) (RECGOV_PASSWORD st) (heap st) (jobs st) (credentials st) (timers st) (browsers st) (abortControllers st) (engines st) (f (tasks st)) (chromium st) (disk st) (published st).

Definition set_chromium (f : list nat → list nat) (st : State) : State :=
  Build_State (clock st) (RECGOV_EMAIL st) (RECGOV_PASSWORD st) (heap st) (jobs st) (credentials st) (timers st) (browsers st) (abortControllers st) (engines st) (tasks st) (f (chromium st)) (disk st) (published st).

Definition set_disk (f : option (list SniperJob) → option (list SniperJob)) (st : State) : State :=
  Build_State (clock st) (RECGOV_EMAIL st) (RECGOV_PASSWORD st) (heap st) (jobs st) (credentials st) (timers st) (browsers st) (abortControllers st) (engines st) (tasks st) (chromium st) (f (disk st)) (published st).

Definition set_published (f : list SniperJob → list SniperJob) (st : State) : State :=
  Build_State (clock st) (RECGOV_EMAIL st) (RECGOV_PASSWORD st) (heap st) (jobs st) (credentials st) (timers st) (browsers st) (abortControllers st) (engines st) (tasks st) (chromium st) (disk st) (f (published st)).

(** *** The [jobs] map *)

Definition jobs_get (id_ : string) (m : list (string * nat)) : option nat :=
  snd <$> List.find (λ p, String.eqb p.1 id_) m.

Fixpoint jobs_set (id_ : string) (r : nat) (m : list (string * nat)) : list (string * nat) :=
  match m with
  | [] => [(id_, r)]
  | p :: m' => if String.eqb p.1 id_ then (id_, r) :: m' else p :: jobs_set id_ r m'
  end.

Definition jobs_delete (id_ : string) (m : list (string * nat)) : list (string * nat) :=
  List.filter (λ p, negb (String.eqb p.1 id_)) m.

(** *** Job objects *)

Definition blank : SniperJob :=
  {| id := ""; permitId := ""; permitName := ""; divisionId := "";
     desiredDateRanges := []; groupSize := 0; windowOpensAt := "";
     status := pending; attempts := 0; message := ""; bookedRange := None;
     createdAt := ""; updatedAt := "" |}.

(** The object behind a reference.  References come from [alloc] and are
    never dangling; [blank] only keeps the function total. *)
Definition deref (r : nat) (st : State) : SniperJob := default blank (heap st !! r).

Definition alloc (job : SniperJob) (st : State) : State := set_heap (λ h, h ++ [job]) st.

Definition applyUpdates (u : Updates) (now : string) (job : SniperJob) : SniperJob :=
  {| id := id job; permitId := permitId job; permitName := permitName job;
     divisionId := divisionId job; desiredDateRanges := desiredDateRanges job;
     groupSize := groupSize job; windowOpensAt := windowOpensAt job;
     status := default (status job) (u_status u);
     attempts := attempts job;
     message := default (message job) (u_message u);
     bookedRange := default (bookedRange job) (u_bookedRange u);
     createdAt := createdAt job; updatedAt := now |}.

Definition incrementAttempts (job : SniperJob) : SniperJob :=
  {| id := id job; permitId := permitId job; permitName := permitName job;
     divisionId := divisionId job; desiredDateRanges := desiredDateRanges job;
     groupSize := groupSize job; windowOpensAt := windowOpensAt job;
     status := status job; attempts := attempts job + 1; message := message job;
     bookedRange := bookedRange job; createdAt := createdAt job;
     updatedAt := updatedAt job |}.

(** [notify]: every subscriber receives the snapshot. *)
Definition notify (job : SniperJob) (st : State) : State :=
  set_published (λ p, p ++ [job]) st.

(** [Array.from(jobs.values())] *)
Definition jobs_values (st : State) : list SniperJob :=
  map (λ p, deref p.2 st) (jobs st).

Section Store.
Context {platform : Platform}.

Definition updateJob (job : nat) (updates : Updates) (st : State) : State :=
  let st := set_heap (alter (applyUpdates updates (Date_toISOString (clock st))) job) st in
  notify (deref job st) st.

(** One settled await of [saveJobs].  [inl] is the next stage, [inr] the
    completion of the call. *)
Definition saveJobs_resume (s : SaveStage) (r : Reply) (st : State)
  : State * (SaveStage + Completion unit) :=
  match s, r with
  | _, Rejected msg => (st, inr (Thrown msg))
  | Mkdir, _ => (st, inl (Writing (jobs_values st)))
  | Writing l, _ => (set_disk (λ _, Some l) st, inr (Returned ()))
  end.

End Store.

(** ** Scheduler, acquisition engine and public API *)

Inductive Event :=
| Tick (dt : Z)                                        (* time passes *)
| ProcessRestarts                                              (* the process exits and starts again *)
| CallCreateJob (req : SniperJobRequest) (uuid localeString : string)
| CallSupplyCredentials (id_ email_ password_ : string)
| CallCancelJob (id_ : string)
| CallDeleteJob (id_ : string)
| CallLoadAndScheduleJobs
| TimerFires (id_ : string)                            (* the setTimeout callback of scheduleJob *)
| EngineResumes (e : nat) (r : Reply)                  (* the await of engine e settles *)
| TaskResumes (t : nat) (r : Reply).                   (* the await of task t settles *)

Definition settled (r : Reply) : bool :=
  match r with Resolved | Rejected _ => true | _ => false end.

(** [clearTimeout] *)
Definition clearTimeout (t : Timer) : Timer :=
  {| due := due t; timer_job := timer_job t; active := false |}.

(** [ac.abort()] on the controller of an engine. *)
Definition abort (en : Engine) : Engine :=
  {| e_job := e_job en; e_aborted := true; e_pc := e_pc en |}.

(** [browser.close()] is called on a launched browser. *)
Definition close_browser (b : nat) (st : State) : State := set_chromium (alter S b) st.

Definition set_pc (e : nat) (pc : EnginePc) (st : State) : State :=
  set_engines (alter (λ en, {| e_job := e_job en; e_aborted := e_aborted en; e_pc := pc |}) e) st.

Definition set_task (t : nat) (task : Task) (st : State) : State :=
  set_tasks (<[t := task]>) st.

(** [setTimeout] of Node: a delay below 1 ms or above 2147483647 ms
    (2^31 - 1, some 24.8 days) is set to 1 ms. *)
Definition TIMEOUT_MAX : Z := 2147483647.

Definition setTimeout_delay (ms : Z) : Z :=
  if (ms <? 1) || (TIMEOUT_MAX <? ms) then 1 else ms.

(** How a [sleep(ms, signal)] stands: the abort listener rejects it, unless
    the signal was aborted before the listener was added; otherwise the timer
    resolves it once due. *)
Definition sleep_settles (en : Engine) (listening : bool) (wake : Z) (st : State)
  : option bool :=
  if listening && e_aborted en then Some false
  else if wake <=? clock st then Some true
  else None.

(** [getRecgovCredentials]: an unset or empty variable is falsy. *)
Definition truthy (o : option string) : option string :=
  match o with
  | Some s => if String.eqb s "" then None else Some s
  | None => None
  end.

Definition getRecgovCredentials (st : State) : Completion Credentials :=
  match truthy (RECGOV_EMAIL st), truthy (RECGOV_PASSWORD st) with
  | Some e, Some p => Returned {| email := e; password := p |}
  | _, _ => Thrown "RECGOV_EMAIL and RECGOV_PASSWORD environment variables are required for sniper jobs"
  end.

Definition range_text (r : DateRange) : string := startDate r +:+ " - " +:+ endDate r.

Section Engine.
Context {platform : Platform}.
Variable rev : Revision.

(** *** runSniperJob: the finally block *)
Definition finally_ (e : nat) (en : Engine) (st : State) : State :=
  let job := deref (e_job en) st in
  let st := set_abortControllers (delete (id job)) st in
  (* Close browser unless permit is in cart *)
  if decide (status job = in_cart) then set_pc e Ended st
  else match browsers st !! id job with
       | Some b => set_pc e Closing (close_browser b st)
       | None => set_pc e Ended st
       end.

(** *** runSniperJob: the catch block *)
Definition catch_ (e : nat) (en : Engine) (msg : string) (st : State) : State :=
  if e_aborted en then finally_ e en st
  else set_pc e (CatchSave Mkdir)
         (updateJob (e_job en) (status_message failed ("Sniper failed: " +:+ msg)) st).

(** One settled await of an [await saveJobs()] of the engine. *)
Definition engine_save (e : nat) (s : SaveStage) (r : Reply) (st : State)
    (stage : SaveStage → EnginePc) (done : State → State)
    (throw : string → State → State) : State :=
  match saveJobs_resume s r st with
  | (st, inl s') => set_pc e (stage s') st
  | (st, inr (Returned _)) => done st
  | (st, inr (Thrown msg)) => throw msg st
  end.

(** *** Phase 3: the fallback loop over the remaining ranges *)
Definition fallback_loop (e : nat) (en : Engine) (remainingRanges : list DateRange)
    (st : State) : State :=
  match remainingRanges with
  | fallbackRange :: rest =>
      if e_aborted en then finally_ e en st
      else set_pc e (FallbackPolling fallbackRange rest) st
  | [] =>
      (* All ranges failed *)
      set_pc e (ExhaustedSave Mkdir)
        (updateJob (e_job en)
           (status_message failed
              ("Could not book any of the desired date ranges after "
               +:+ pretty (attempts (deref (e_job en) st)) +:+ " attempts.")) st)
  end.

(** *** After the watch loop *)
Definition after_watch (e : nat) (en : Engine) (foundRange : option DateRange)
    (st : State) : State :=
  if e_aborted en then finally_ e en st
  else match foundRange with
       | None =>
           set_pc e (NoAvailabilitySave Mkdir)
             (updateJob (e_job en)
                (status_message failed
                   ("No availability detected after "
                    +:+ pretty (attempts (deref (e_job en) st)) +:+ " polls ("
                    +:+ pretty (MAX_WATCH_DURATION_MS / 1000)
                    +:+ "s). Window may have passed.")) st)
       | Some r =>
           set_pc e (BookingSave r Mkdir)
             (updateJob (e_job en)
                (status_message booking ("Booking " +:+ range_text r +:+ "...")) st)
       end.

(** *** Phase 2: the head of the watch loop *)
Definition watch_loop (e : nat) (en : Engine) (watchDeadline : Z) (st : State) : State :=
  if negb (e_aborted en) && (clock st <? watchDeadline)
  then set_pc e (Polling watchDeadline)
         (set_heap (alter incrementAttempts (e_job en)) st)
  else after_watch e en None st.

(** A poll of the watch loop has settled. *)
Definition polled (e : nat) (en : Engine) (watchDeadline : Z) (o : FetchOutcome)
    (st : State) : State :=
  let job := deref (e_job en) st in
  let '(foundRange, st) :=
    match checkAvailability (permitId job) (divisionId job)
            (desiredDateRanges job) (λ _, o) with
    | Returned found => (found, st)
    | Thrown msg =>
        (None, updateJob (e_job en)
                 (just_message ("Poll #" +:+ pretty (attempts job)
                                +:+ ": API error (" +:+ msg +:+ "). Retrying...")) st)
    end in
  match foundRange with
  | Some r =>
      after_watch e en foundRange
        (updateJob (e_job en)
           (just_message ("Availability detected for " +:+ range_text r
                          +:+ "! Attempting to book...")) st)
  | None =>
      set_pc e (PollSleep watchDeadline (negb (e_aborted en))
                  (clock st + setTimeout_delay POLL_INTERVAL_MS))
        (updateJob (e_job en)
           (just_message ("Poll #" +:+ pretty (attempts job)
                          +:+ ": No availability yet. Next check in 1.5s...")) st)
  end.

(** *** Entering phase 2 *)
Definition enter_watch (e : nat) (en : Engine) (st : State) : State :=
  if e_aborted en then finally_ e en st
  else set_pc e (WatchSave Mkdir)
         (updateJob (e_job en)
            (status_message watching "Window open! Polling for availability...") st).

(** *** Phase 1, after the group size is set: wait until the window opens *)
Definition wait_for_window (e : nat) (en : Engine) (st : State) : State :=
  match Date_parse (windowOpensAt (deref (e_job en) st)) with
  | Some windowTime =>
      let waitMs := windowTime - clock st in
      if 0 <? waitMs
      then set_pc e (AwaitingWindow (negb (e_aborted en))
                       (clock st + setTimeout_delay waitMs))
             (updateJob (e_job en)
                (just_message ("Pre-warmed. Waiting " +:+ pretty ((waitMs + 500) / 1000)
                               +:+ "s for window to open...")) st)
      else enter_watch e en st
  | None => enter_watch e en st
  end.

(** The claim of a range succeeded. *)
Definition booked (e : nat) (en : Engine) (r : DateRange) (fallback : bool)
    (st : State) : State :=
  set_pc e (InCartSave Mkdir)
    (updateJob (e_job en)
       (in_cart_update r
          (if fallback
           then "Permit for " +:+ range_text r
                +:+ " (fallback) added to cart! Complete purchase on recreation.gov."
           else "Permit for " +:+ range_text r
                +:+ " added to cart! Complete your purchase on recreation.gov.")) st).

(** [desiredDateRanges.filter(...)]: the ranges other than [foundRange]. *)
Definition remainingRanges (job : SniperJob) (foundRange : DateRange) : list DateRange :=
  List.filter (λ r, negb (String.eqb (startDate r) (startDate foundRange))
                    || negb (String.eqb (endDate r) (endDate foundRange)))
    (desiredDateRanges job).

(** *** One settled await of runSniperJob *)
Definition engine_resume (e : nat) (r : Reply) (st : State) : State :=
  match engines st !! e with
  | None => st
  | Some en =>
    match e_pc en, r with
    | PrewarmSave s, (Resolved | Rejected _) =>
        engine_save e s r st PrewarmSave (set_pc e Launching) (catch_ e en)
    | Launching, Resolved =>
        set_pc e (OpeningPage (length (chromium st)))
          (set_chromium (λ l, l ++ [O]) st)
    | Launching, Rejected msg => catch_ e en msg st
    | OpeningPage b, Resolved =>
        let st := set_browsers (<[id (deref (e_job en) st) := b]>) st in
        if e_aborted en then finally_ e en st else set_pc e SigningIn st
    | OpeningPage b, Rejected msg => catch_ e en msg st
    | SigningIn, Resolved =>
        if e_aborted en then finally_ e en st
        else match desiredDateRanges (deref (e_job en) st) with
             | firstRange :: _ => set_pc e Navigating st
             | [] => catch_ e en "Cannot read properties of undefined (reading 'startDate')" st
             end
    | SigningIn, Rejected msg => catch_ e en msg st
    | Navigating, Resolved =>
        if e_aborted en then finally_ e en st else set_pc e SettingGroupSize st
    | Navigating, Rejected msg => catch_ e en msg st
    | SettingGroupSize, Resolved => wait_for_window e en st
    | AwaitingWindow listening wake, (Resolved | Rejected _) =>
        match sleep_settles en listening wake st with
        | Some true => enter_watch e en st
        | Some false => catch_ e en "Aborted" st
        | None => st
        end
    | WatchSave s, (Resolved | Rejected _) =>
        engine_save e s r st WatchSave
          (λ st, watch_loop e en (clock st + MAX_WATCH_DURATION_MS) st) (catch_ e en)
    | Polling watchDeadline, Fetched o => polled e en watchDeadline o st
    | PollSleep watchDeadline listening wake, (Resolved | Rejected _) =>
        match sleep_settles en listening wake st with
        | Some true => watch_loop e en watchDeadline st
        | Some false => catch_ e en "Aborted" st
        | None => st
        end
    | NoAvailabilitySave s, (Resolved | Rejected _) =>
        engine_save e s r st NoAvailabilitySave (finally_ e en) (catch_ e en)
    | BookingSave foundRange s, (Resolved | Rejected _) =>
        engine_save e s r st (BookingSave foundRange)
          (set_pc e (Claiming foundRange)) (catch_ e en)
    | Claiming foundRange, Claimed true => booked e en foundRange false st
    | Claiming foundRange, Claimed false =>
        (* First range failed (race condition). Try remaining ranges. *)
        fallback_loop e en (remainingRanges (deref (e_job en) st) foundRange) st
    | InCartSave s, (Resolved | Rejected _) =>
        engine_save e s r st InCartSave (finally_ e en) (catch_ e en)
    | FallbackPolling fallbackRange rest, Fetched o =>
        let job := deref (e_job en) st in
        match checkAvailability (permitId job) (divisionId job) [fallbackRange] (λ _, o) with
        | Thrown msg => catch_ e en msg st
        | Returned None => fallback_loop e en rest st
        | Returned (Some _) =>
            set_pc e (FallbackClaiming fallbackRange rest)
              (updateJob (e_job en)
                 (just_message ("Primary range taken. Trying fallback: "
                                +:+ range_text fallbackRange +:+ "...")) st)
        end
    | FallbackClaiming fallbackRange rest, Claimed true =>
        booked e en fallbackRange true st
    | FallbackClaiming fallbackRange rest, Claimed false => fallback_loop e en rest st
    | ExhaustedSave s, (Resolved | Rejected _) =>
        engine_save e s r st ExhaustedSave (finally_ e en) (catch_ e en)
    | CatchSave s, (Resolved | Rejected _) =>
        engine_save e s r st CatchSave (finally_ e en) (λ _, finally_ e en)
    | Closing, (Resolved | Rejected _) =>
        set_pc e Ended (set_browsers (delete (id (deref (e_job en) st))) st)
    | _, _ => st
    end
  end.

(** *** runSniperJob, up to its first await *)
Definition start_prewarm (job : nat) (st : State) : State :=
  let e := length (engines st) in
  let st := set_engines
              (λ l, l ++ [{| e_job := job; e_aborted := false; e_pc := PrewarmSave Mkdir |}]) st in
  let st := set_abortControllers (<[id (deref job st) := e]>) st in
  updateJob job (status_message pre_warming "Launching browser and signing in...") st.

Definition runSniperJob (job : nat) (st : State) : State :=
  match rev with
  | EnvCredentials =>
      match getRecgovCredentials st with
      | Thrown msg => updateJob job (status_message failed msg) st
      | Returned creds => start_prewarm job st
      end
  | CredentialTable =>
      match credentials st !! id (deref job st) with
      | None =>
          updateJob job
            (just_message "Cannot start: credentials not provided. Re-enter via the Sniper page.") st
      | Some creds => start_prewarm job st
      end
  end.

(** *** Scheduling *)
Definition scheduleJob (job : nat) (st : State) : State :=
  let j := deref job st in
  (* Clear any existing timer for this job *)
  let st := set_timers (alter clearTimeout (id j)) st in
  match Date_parse (windowOpensAt j) with
  | Some windowTime =>
      let preWarmTime := windowTime - PRE_WARM_LEAD_MS in
      let delayToPreWarm := Z.max 0 (preWarmTime - clock st) in
      if 0 <? delayToPreWarm
      then set_timers (<[id j := {| due := clock st + setTimeout_delay delayToPreWarm;
                                    timer_job := job; active := true |}]>) st
      else runSniperJob job st   (* Pre-warm time already passed; start immediately *)
  | None => runSniperJob job st  (* Math.max(0, NaN) is NaN, and NaN > 0 is false *)
  end.

Definition timer_fires (id_ : string) (st : State) : State :=
  match timers st !! id_ with
  | Some t =>
      if active t && (due t <=? clock st)
      then runSniperJob (timer_job t)
             (set_timers (delete (id (deref (timer_job t) st))) st)
      else st
  | None => st
  end.

(** *** cancelJob *)
Definition cancel_finish (id_ : string) (job : nat) (st : State) : State * CancelPc :=
  let st := match rev with
            | CredentialTable => set_credentials (delete id_) st
            | EnvCredentials => st
            end in
  (updateJob job (status_message cancelled "Cancelled by user.") st, CancelSave Mkdir).

Definition cancelJob (id_ : string) (st : State) : State * CancelPc :=
  match jobs_get id_ (jobs st) with
  | None => (st, CancelDone (Returned false))
  | Some job =>
      (* Clear timers *)
      let st := set_timers (delete id_) st in
      (* Abort running loops *)
      let st := match abortControllers st !! id_ with
                | Some ac => set_abortControllers (delete id_) (set_engines (alter abort ac) st)
                | None => st
                end in
      (* Close browser *)
      match browsers st !! id_ with
      | Some b => (close_browser b st, CancelClosing job)
      | None => cancel_finish id_ job st
      end
  end.

Definition cancelJob_resume (id_ : string) (pc : CancelPc) (r : Reply) (st : State)
  : State * CancelPc :=
  match pc with
  | CancelClosing job => cancel_finish id_ job (set_browsers (delete id_) st)
  | CancelSave s =>
      match saveJobs_resume s r st with
      | (st, inl s') => (st, CancelSave s')
      | (st, inr (Returned _)) => (st, CancelDone (Returned true))
      | (st, inr (Thrown msg)) => (st, CancelDone (Thrown msg))
      end
  | CancelDone _ => (st, pc)
  end.

(** *** deleteJob *)
Definition deleteJob (id_ : string) (st : State) : State * DeletePc :=
  let '(st, c) := cancelJob id_ st in (st, DeleteCancelling c).

Definition deleteJob_resume (id_ : string) (pc : DeletePc) (r : Reply) (st : State)
  : State * DeletePc :=
  match pc with
  | DeleteCancelling (CancelDone (Returned _)) =>
      (set_jobs (jobs_delete id_) st, DeleteSave Mkdir)
  | DeleteCancelling (CancelDone (Thrown msg)) => (st, DeleteDone (Thrown msg))
  | DeleteCancelling c =>
      let '(st, c') := cancelJob_resume id_ c r st in (st, DeleteCancelling c')
  | DeleteSave s =>
      match saveJobs_resume s r st with
      | (st, inl s') => (st, DeleteSave s')
      | (st, inr (Returned _)) => (st, DeleteDone (Returned true))
      | (st, inr (Thrown msg)) => (st, DeleteDone (Thrown msg))
      end
  | DeleteDone _ => (st, pc)
  end.

(** *** createJob *)
Definition createJob (req : SniperJobRequest) (uuid localeString : string)
    (st : State) : State :=
  let now := Date_toISOString (clock st) in
  let job :=
    {| id := uuid; permitId := req_permitId req; permitName := req_permitName req;
       divisionId := req_divisionId req;
       desiredDateRanges := req_desiredDateRanges req;
       groupSize := req_groupSize req; windowOpensAt := req_windowOpensAt req;
       status := pending; attempts := 0;
       message := "Scheduled. Window opens at " +:+ localeString +:+ ".";
       bookedRange := None; createdAt := now; updatedAt := now |} in
  let r := length (heap st) in
  let st := set_jobs (jobs_set uuid r) (alloc job st) in
  let st := match rev with
            | CredentialTable =>
                set_credentials
                  (<[uuid := {| email := req_email req; password := req_password req |}]>) st
            | EnvCredentials => st
            end in
  set_tasks (λ l, l ++ [TCreate r Mkdir]) st.

Definition createJob_resume (t : nat) (job : nat) (s : SaveStage) (r : Reply)
    (st : State) : State :=
  match saveJobs_resume s r st with
  | (st, inl s') => set_task t (TCreate job s') st
  | (st, inr (Returned _)) =>
      let st := scheduleJob job st in
      let st := notify (deref job st) st in
      set_task t (TCreated (Returned (deref job st))) st
  | (st, inr (Thrown msg)) => set_task t (TCreated (Thrown msg)) st
  end.

(** *** supplyCredentials (credential-table revision) *)
Definition supplyCredentials (id_ email_ password_ : string) (st : State)
  : State * bool :=
  match jobs_get id_ (jobs st) with
  | None => (st, false)
  | Some job =>
      let st := set_credentials (<[id_ := {| email := email_; password := password_ |}]>) st in
      (* If job is pending, re-schedule it (credentials were missing) *)
      let st := if decide (status (deref job st) = pending) then scheduleJob job st else st in
      (updateJob job
         (just_message ("Credentials updated. " +:+ message (deref job st))) st, true)
  end.

(** *** loadAndScheduleJobs: the body of the loop over the jobs on disk *)
Definition load_one (st : State) (dj : SniperJob) : State :=
  let r := length (heap st) in
  let st := set_jobs (jobs_set (id dj) r) (alloc dj st) in
  (* Only re-schedule pending jobs whose window hasn't passed *)
  if decide (status dj = pending) then
    match Date_parse (windowOpensAt dj) with
    | Some windowTime =>
        if clock st <? windowTime + MAX_WATCH_DURATION_MS then
          match rev with
          | EnvCredentials => scheduleJob r st
          | CredentialTable =>
              (* Will need credentials before it can run *)
              match credentials st !! id dj with
              | Some _ => scheduleJob r (updateJob r (just_message (message dj)) st)
              | None =>
                  updateJob r
                    (just_message "Awaiting credentials (server restarted). Re-enter via the UI.") st
              end
          end
        else
          updateJob r
            (status_message failed "Window has already passed (server was offline).") st
    | None =>  (* NaN > Date.now() is false *)
        updateJob r
          (status_message failed "Window has already passed (server was offline).") st
    end
  else st.

Definition loadAndScheduleJobs_resume (t : nat) (pc : LoadPc) (r : Reply)
    (st : State) : State :=
  match pc with
  | ReadingDisk =>
      (* loadJobsFromDisk: a missing or unreadable file reads as [] *)
      let diskJobs := match r with Rejected _ => [] | _ => default [] (disk st) end in
      set_task t (TLoad (SavingLoaded Mkdir)) (fold_left load_one diskJobs st)
  | SavingLoaded s =>
      match saveJobs_resume s r st with
      | (st, inl s') => set_task t (TLoad (SavingLoaded s')) st
      | (st, inr c) => set_task t (TLoad (Loaded c)) st
      end
  | Loaded _ => st
  end.

Definition task_resume (t : nat) (r : Reply) (st : State) : State :=
  if settled r then
    match tasks st !! t with
    | Some (TCreate job s) => createJob_resume t job s r st
    | Some (TCancel id_ pc) =>
        let '(st, pc') := cancelJob_resume id_ pc r st in set_task t (TCancel id_ pc') st
    | Some (TDelete id_ pc) =>
        let '(st, pc') := deleteJob_resume id_ pc r st in set_task t (TDelete id_ pc') st
    | Some (TLoad pc) => loadAndScheduleJobs_resume t pc r st
    | Some (TCreated _) | None => st
    end
  else st.

(** *** The system *)
Definition restart (st : State) : State :=
  {| clock := clock st; RECGOV_EMAIL := RECGOV_EMAIL st;
     RECGOV_PASSWORD := RECGOV_PASSWORD st;
     heap := []; jobs := []; credentials := ∅; timers := ∅; browsers := ∅;
     abortControllers := ∅; engines := []; tasks := [];
     chromium := chromium st; disk := disk st; published := published st |}.

Definition step (ev : Event) (st : State) : State :=
  match ev with
  | Tick dt => if 0 <=? dt then set_clock (λ c, c + dt) st else st
  | ProcessRestarts => restart st
  | CallCreateJob req uuid localeString => createJob req uuid localeString st
  | CallSupplyCredentials id_ email_ password_ =>
      match rev with
      | CredentialTable => (supplyCredentials id_ email_ password_ st).1
      | EnvCredentials => st
      end
  | CallCancelJob id_ =>
      let '(st, pc) := cancelJob id_ st in set_tasks (λ l, l ++ [TCancel id_ pc]) st
  | CallDeleteJob id_ =>
      let '(st, pc) := deleteJob id_ st in set_tasks (λ l, l ++ [TDelete id_ pc]) st
  | CallLoadAndScheduleJobs => set_tasks (λ l, l ++ [TLoad ReadingDisk]) st
  | TimerFires id_ => timer_fires id_ st
  | EngineResumes e r => engine_resume e r st
  | TaskResumes t r => task_resume t r st
  end.

Definition run (evs : list Event) (st : State) : State :=
  fold_left (λ s ev, step ev s) evs st.

End Engine.

(** The process right after it has started for the first time. *)
Definition boot (now : Z) (email_ password_ : option string) : State :=
  {| clock := now; RECGOV_EMAIL := email_; RECGOV_PASSWORD := password_;
     heap := []; jobs := []; credentials := ∅; timers := ∅; browsers := ∅;
     abortControllers := ∅; engines := []; tasks := [];
     chromium := []; disk := None; published := [] |}.

(** ** The DELETE route of routes/sniper.ts *)

Inductive ResponseBody :=
| ErrorBody (error : string)       (* { error } *)
| DeletedBody (deleted : bool).    (* { deleted } *)

(** The handler, after [const ok = await deleteJob(req.params.id)]. *)
Definition delete_route (ok : bool) : Z * ResponseBody :=
  if negb ok then (404, ErrorBody "Job not found")
  else (200, DeletedBody true).

(** The create route's check of one range: both dates present, and
    [endDate <= startDate] (a comparison of strings) rejects. *)
Definition valid_range (range : DateRange) : bool :=
  negb (String.eqb (startDate range) "") && negb (String.eqb (endDate range) "")
  && negb (String.leb (endDate range) (startDate range)).

(** * Specification vocabulary *)

Section AvailabilityVocabulary.
Context {platform : Platform}.

(** The text [expandRange] pushes for the time value [t]. *)
Definition night_text (t : Z) : string := String.substring 0 10 (Date_toISOString t).

(** A night is open when the table holds a remaining capacity above 0. *)
Definition night_open (availByDate : gmap string Z) (d : string) : Prop :=
  ∃ n, availByDate !! d = Some n ∧ 0 < n.

Definition fully_available (availByDate : gmap string Z) (range : DateRange) : Prop :=
  ∀ d, d ∈ expandRange range → night_open availByDate d.

(** Some night of the range is at 0 (or below), or absent from the table. *)
Definition some_night_closed (availByDate : gmap string Z) (range : DateRange) : Prop :=
  ∃ d, d ∈ expandRange range
       ∧ (availByDate !! d = None ∨ ∃ n, availByDate !! d = Some n ∧ n ≤ 0).

(** *** Nights and tables, in the words of the specification

    The two notions the selection rule speaks of, written down on their own
    and not through the functions of the code.  A night of a range is a
    calendar date from the start date on and before the end date: the date
    [k] days after the start date, for some [k], as long as it is before the
    end date.  The table of a division gives, for a date, the remaining
    capacity of the entry of [date_availability] whose key starts with that
    date (the last such entry, should the payload hold several). *)

Definition night_of (range : DateRange) (d : string) : Prop :=
  ∃ (start end_ : Z) (k : nat),
    Date_parse (startDate range +:+ "T00:00:00.000Z") = Some start
    ∧ Date_parse (endDate range +:+ "T00:00:00.000Z") = Some end_
    ∧ start + Z.of_nat k * msPerDay < end_
    ∧ d = night_text (start + Z.of_nat k * msPerDay).

Definition table_remaining (division : list (string * DateAvailability)) (d : string)
  : option Z :=
  (λ e, remaining e.2) <$> last (filter (λ e, String.substring 0 10 e.1 = d) division).

(** Every night of the range has a remaining capacity above 0. *)
Definition has_capacity (division : list (string * DateAvailability))
    (range : DateRange) : Prop :=
  ∀ d, night_of range d → ∃ n, table_remaining division d = Some n ∧ 0 < n.

(** A night of the range has remaining capacity 0 (or below), or is absent
    from the table. *)
Definition lacks_capacity (division : list (string * DateAvailability))
    (range : DateRange) : Prop :=
  ∃ d, night_of range d
       ∧ (table_remaining division d = None
          ∨ ∃ n, table_remaining division d = Some n ∧ n ≤ 0).

End AvailabilityVocabulary.

(** ** Credentials and start-up *)

Definition credentials_absent (rev : Revision) (st : State) (job : SniperJob) : Prop :=
  match rev with
  | EnvCredentials => truthy (RECGOV_EMAIL st) = None ∨ truthy (RECGOV_PASSWORD st) = None
  | CredentialTable => credentials st !! id job = None
  end.

Definition missing_env : string :=
  "RECGOV_EMAIL and RECGOV_PASSWORD environment variables are required for sniper jobs".

Definition missing_entry : string :=
  "Cannot start: credentials not provided. Re-enter via the Sniper page.".


Definition awaiting_credentials : string :=
  "Awaiting credentials (server restarted). Re-enter via the UI.".


(** ** deleteJob on its own *)

Section DeleteVocabulary.
Context {platform : Platform}.

(** The call, then its awaits settling one by one. *)
Definition deleteJob_run (rev : Revision) (id_ : string) (replies : list Reply)
    (st : State) : State * DeletePc :=
  fold_left (λ sp r, deleteJob_resume rev id_ sp.2 r sp.1) replies (deleteJob rev id_ st).

End DeleteVocabulary.

(** Awaits left before deleteJob returns, when none of them rejects. *)
Definition awaits_left (pc : DeletePc) : option nat :=
  match pc with
  | DeleteCancelling (CancelClosing _) => Some 6%nat
  | DeleteCancelling (CancelSave Mkdir) => Some 5%nat
  | DeleteCancelling (CancelSave (Writing _)) => Some 4%nat
  | DeleteCancelling (CancelDone (Returned _)) => Some 3%nat
  | DeleteSave Mkdir => Some 2%nat
  | DeleteSave (Writing _) => Some 1%nat
  | DeleteDone (Returned true) => Some 0%nat
  | _ => None
  end.

Definition never_false (pc : DeletePc) : Prop := pc ≠ DeleteDone (Returned false).

(** ** The invariant on bookedRange *)

Definition ok_job (j : SniperJob) : Prop :=
  ∀ r, bookedRange j = Some r → r ∈ desiredDateRanges j.

Definition ok_stage (s : SaveStage) : Prop :=
  match s with
  | Mkdir => True
  | Writing l => Forall ok_job l
  end.

(** The ranges an engine holds in its local variables are drawn from
    [desired], the desired ranges of its job. *)
Definition ok_pc (desired : list DateRange) (pc : EnginePc) : Prop :=
  match pc with
  | PrewarmSave s | WatchSave s | NoAvailabilitySave s | InCartSave s
  | ExhaustedSave s | CatchSave s => ok_stage s
  | BookingSave r s => r ∈ desired ∧ ok_stage s
  | Claiming r => r ∈ desired
  | FallbackPolling r rest | FallbackClaiming r rest => r ∈ desired ∧ rest ⊆ desired
  | _ => True
  end.

Definition ok_cancel (pc : CancelPc) : Prop :=
  match pc with
  | CancelSave s => ok_stage s
  | _ => True
  end.

Definition ok_engine (h : list SniperJob) (en : Engine) : Prop :=
  ∃ j, h !! e_job en = Some j ∧ ok_pc (desiredDateRanges j) (e_pc en).

Definition ok_task (h : list SniperJob) (t : Task) : Prop :=
  match t with
  | TCreate job s => is_Some (h !! job) ∧ ok_stage s
  | TCreated _ => True
  | TCancel _ pc => ok_cancel pc
  | TDelete _ (DeleteCancelling pc) => ok_cancel pc
  | TDelete _ (DeleteSave s) => ok_stage s
  | TDelete _ (DeleteDone _) => True
  | TLoad (SavingLoaded s) => ok_stage s
  | TLoad _ => True
  end.

Definition ok_timer (h : list SniperJob) (t : Timer) : Prop := is_Some (h !! timer_job t).

Definition ok_entry (h : list SniperJob) (p : string * nat) : Prop := is_Some (h !! p.2).

Record Inv (st : State) : Prop := {
  inv_heap : Forall ok_job (heap st);
  inv_disk : ∀ l, disk st = Some l → Forall ok_job l;
  inv_published : Forall ok_job (published st);
  inv_engines : Forall (ok_engine (heap st)) (engines st);
  inv_tasks : Forall (ok_task (heap st)) (tasks st);
  inv_timers : map_Forall (λ _, ok_timer (heap st)) (timers st);
  inv_jobs : Forall (ok_entry (heap st)) (jobs st);
}.

(** Job objects stay where they are and keep their desired ranges. *)
Definition stable (h h' : list SniperJob) : Prop :=
  ∀ r j, h !! r = Some j →
         ∃ j', h' !! r = Some j' ∧ desiredDateRanges j' = desiredDateRanges j.

(** What updateJob may assign to [bookedRange]. *)
Definition ok_updates (desired : list DateRange) (u : Updates) : Prop :=
  ∀ r, u_bookedRange u = Some (Some r) → r ∈ desired.

(** Engine [e] works on the job object [r], whose desired ranges are [d]. *)
Definition focus (st : State) (e r : nat) (d : list DateRange) : Prop :=
  (∃ en, engines st !! e = Some en ∧ e_job en = r)
  ∧ (∃ j, heap st !! r = Some j ∧ desiredDateRanges j = d).

Definition Good (st : State) (e r : nat) (d : list DateRange) : Prop :=
  Inv st ∧ focus st e r d.

(** ** Calendar dates in canonical form *)

(** A day of the proleptic Gregorian calendar, years 0000 to 9999. *)
Definition valid_date (y m d : Z) : Prop :=
  0 ≤ y ≤ 9999 ∧ 1 ≤ m ≤ 12 ∧ 1 ≤ d ≤ Iso8601.days_in_month y m.

Definition earlier_date (y m d y' m' d' : Z) : Prop :=
  y < y' ∨ (y = y' ∧ (m < m' ∨ (m = m' ∧ d < d'))).

(** The text YYYY-MM-DD made of the given characters. *)
Definition date_text (c0 c1 c2 c3 c4 c5 c6 c7 : ascii) : string :=
  String c0 (String c1 (String c2 (String c3 (String "-"
    (String c4 (String c5 (String "-" (String c6 (String c7 ""))))))))).

(** The text is the day [d] of month [m] of year [y], written YYYY-MM-DD,
    and that day exists in the calendar. *)
Definition calendar_date (a : string) (y m d : Z) : Prop :=
  ∃ c0 c1 c2 c3 c4 c5 c6 c7 v0 v1 v2 v3 v4 v5 v6 v7,
    a = date_text c0 c1 c2 c3 c4 c5 c6 c7
    ∧ Iso8601.digit c0 = Some v0 ∧ Iso8601.digit c1 = Some v1
    ∧ Iso8601.digit c2 = Some v2 ∧ Iso8601.digit c3 = Some v3
    ∧ Iso8601.digit c4 = Some v4 ∧ Iso8601.digit c5 = Some v5
    ∧ Iso8601.digit c6 = Some v6 ∧ Iso8601.digit c7 = Some v7
    ∧ y = 1000 * v0 + 100 * v1 + 10 * v2 + v3
    ∧ m = 10 * v4 + v5
    ∧ d = 10 * v6 + v7
    ∧ valid_date y m d.

(** ** A worked scenario, on the ISO 8601 platform *)

Module Scenario.
#[local] Existing Instance Iso8601.platform.

Definition july15_18 : DateRange := {| startDate := "2026-07-15"; endDate := "2026-07-18" |}.
Definition july20_22 : DateRange := {| startDate := "2026-07-20"; endDate := "2026-07-22" |}.

Definition request : SniperJobRequest :=
  {| req_permitId := "4675"; req_permitName := "Obsidian Trail"; req_divisionId := "12";
     req_desiredDateRanges := [july15_18; july20_22]; req_groupSize := 2;
     req_windowOpensAt := "2026-07-01T14:00:00.000Z";
     req_email := "hiker@example.org"; req_password := "secret" |}.

(** 2026-07-01T13:00:00.000Z, one hour before the window opens. *)
Definition t13_00 : Z := 1782910800000.

(** 2026-07-01T14:00:00.000Z, when the window opens. *)
Definition t14_00 : Z := 1782914400000.

(** The division shows [n] places left on each night of 15-17 July and
    [m] on each night of 20-21 July. *)
Definition places (n m : Z) : list (string * DateAvailability) :=
  [("2026-07-15T00:00:00Z", {| remaining := n; total := 8 |});
   ("2026-07-16T00:00:00Z", {| remaining := n; total := 8 |});
   ("2026-07-17T00:00:00Z", {| remaining := n; total := 8 |});
   ("2026-07-20T00:00:00Z", {| remaining := m; total := 8 |});
   ("2026-07-21T00:00:00Z", {| remaining := m; total := 8 |})].

Definition answer (n m : Z) : FetchOutcome := Body {[ "12" := places n m ]}.

(** The process starts at 13:00 with the given environment. *)
Definition start (email_ password_ : option string) : State := boot t13_00 email_ password_.
Definition configured : State := start (Some "hiker@example.org") (Some "secret").

(** A job is created and saved; its timer is armed for 13:58. *)
Definition to_pending : list Event :=
  [ CallCreateJob request "job-1" "7/1/2026, 2:00:00 PM";
    TaskResumes 0 Resolved; TaskResumes 0 Resolved ].

(** The timer fires at 13:58, the session is pre-warmed, the window opens
    and the first poll finds nothing: the engine sleeps between two polls. *)
Definition to_watching : list Event :=
  to_pending ++
  [ Tick (58 * 60000); TimerFires "job-1";
    EngineResumes 0 Resolved; EngineResumes 0 Resolved;   (* saveJobs *)
    EngineResumes 0 Resolved;                             (* chromium.launch *)
    EngineResumes 0 Resolved;                             (* newContext, newPage *)
    EngineResumes 0 Resolved;                             (* signIn *)
    EngineResumes 0 Resolved;                             (* page.goto *)
    EngineResumes 0 Resolved;                             (* setGroupSize *)
    Tick (2 * 60000); EngineResumes 0 Resolved;           (* the window opens *)
    EngineResumes 0 Resolved; EngineResumes 0 Resolved;   (* saveJobs *)
    EngineResumes 0 (Fetched (answer 0 0)) ].

(** The sleep ends and the next poll is on its way. *)
Definition to_polling : list Event :=
  to_watching ++ [ Tick 1500; EngineResumes 0 Resolved ].

(** That poll finds 15-18 July; the engine saves and starts the claim. *)
Definition to_claiming : list Event :=
  to_polling ++
  [ EngineResumes 0 (Fetched (answer 3 3));
    EngineResumes 0 Resolved; EngineResumes 0 Resolved ].

(** The claim fails; the engine re-queries the fallback range. *)
Definition to_fallback : list Event :=
  to_claiming ++ [ EngineResumes 0 (Claimed false) ].

(** cancelJob is called while the engine sleeps between two polls.  The
    abort rejects the sleep, and the engine runs its catch and finally blocks
    before the close of cancelJob has settled. *)
Definition cancel_while_sleeping : list Event :=
  to_watching ++
  [ CallCancelJob "job-1";
    EngineResumes 0 (Rejected "Aborted");                 (* the sleep, rejected *)
    TaskResumes 1 Resolved;                               (* close, in cancelJob *)
    EngineResumes 0 Resolved;                             (* close, in the finally block *)
    TaskResumes 1 Resolved; TaskResumes 1 Resolved ].     (* saveJobs, in cancelJob *)

(** cancelJob is called while a poll is in flight; the poll comes back
    with 15-18 July available before the close of cancelJob has settled. *)
Definition cancel_while_polling : list Event :=
  to_polling ++
  [ CallCancelJob "job-1";
    EngineResumes 0 (Fetched (answer 3 3));               (* the poll *)
    TaskResumes 1 Resolved;                               (* close, in cancelJob *)
    EngineResumes 0 Resolved;                             (* close, in the finally block *)
    TaskResumes 1 Resolved; TaskResumes 1 Resolved ].     (* saveJobs, in cancelJob *)

(** cancelJob runs to its end while a claim is in flight; the claim then
    reports "booked". *)
Definition cancel_while_claiming : list Event :=
  to_claiming ++
  [ CallCancelJob "job-1";
    TaskResumes 1 Resolved;                               (* close *)
    TaskResumes 1 Resolved; TaskResumes 1 Resolved;       (* saveJobs *)
    EngineResumes 0 (Claimed true);
    EngineResumes 0 Resolved; EngineResumes 0 Resolved ]. (* saveJobs *)

(** The claim succeeds and nobody cancels. *)
Definition claim_succeeds : list Event :=
  to_claiming ++
  [ EngineResumes 0 (Claimed true);
    EngineResumes 0 Resolved; EngineResumes 0 Resolved ].


(** The browser is launched, but creating its context or page fails. *)
Definition context_fails : list Event :=
  to_pending ++
  [ Tick (58 * 60000); TimerFires "job-1";
    EngineResumes 0 Resolved; EngineResumes 0 Resolved;   (* saveJobs *)
    EngineResumes 0 Resolved;                             (* chromium.launch *)
    EngineResumes 0 (Rejected "Target closed");           (* newContext, newPage *)
    EngineResumes 0 Resolved; EngineResumes 0 Resolved ]. (* saveJobs *)

(** A job is pending and is cancelled before its timer fires. *)
Definition cancel_while_pending : list Event :=
  to_pending ++
  [ CallCancelJob "job-1"; TaskResumes 1 Resolved; TaskResumes 1 Resolved ].

(** The process stops while the job is pending and starts again half an
    hour before the window; the jobs on disk are loaded. *)
Definition restart_before_the_window : list Event :=
  to_pending ++
  [ ProcessRestarts; Tick (30 * 60000);
    CallLoadAndScheduleJobs; TaskResumes 0 Resolved ].


(** A job whose window opens a month ahead, on 1 August at 14:00. *)
Definition august : SniperJobRequest :=
  {| req_permitId := "4675"; req_permitName := "Obsidian Trail"; req_divisionId := "12";
     req_desiredDateRanges := [july15_18; july20_22]; req_groupSize := 2;
     req_windowOpensAt := "2026-08-01T14:00:00.000Z";
     req_email := "hiker@example.org"; req_password := "secret" |}.

(** 2026-08-01T14:00:00.000Z *)
Definition august_14_00 : Z := 1785592800000.

Definition to_pending_august : list Event :=
  [ CallCreateJob august "job-2" "8/1/2026, 2:00:00 PM";
    TaskResumes 0 Resolved; TaskResumes 0 Resolved ].

(** A range that starts on 30 February, which is read as 2 March, and ends
    on 1 March: its end date sorts after its start date and lies before it. *)
Definition february_30 : DateRange := {| startDate := "2026-02-30"; endDate := "2026-03-01" |}.

(** A range whose end date is no date at all, although it sorts after the
    start date. *)
Definition month_13 : DateRange := {| startDate := "2026-07-15"; endDate := "2026-13-01" |}.

Definition january : DateRange := {| startDate := "2027-01-01"; endDate := "2027-01-03" |}.

End Scenario.

(** * Vocabulary for the rest of the service *)

(** ** Reading the jobs *)

(** [getJobs]: a copy of every job, in the order of the map. *)
Definition getJobs (st : State) : list SniperJob := jobs_values st.

(** [getJob]: a copy of the job, or null. *)
Definition getJob (id_ : string) (st : State) : option SniperJob :=
  (λ r, deref r st) <$> jobs_get id_ (jobs st).

(** [jobNeedsCredentials] (credential-table revision): [!credentials.has(id)]. *)
Definition jobNeedsCredentials (id_ : string) (st : State) : bool :=
  match credentials st !! id_ with Some _ => false | None => true end.

(** ** What a job keeps *)

(** What the client asked for, and when. *)
Definition same_request (j j' : SniperJob) : Prop :=
  id j' = id j ∧ permitId j' = permitId j ∧ permitName j' = permitName j
  ∧ divisionId j' = divisionId j ∧ desiredDateRanges j' = desiredDateRanges j
  ∧ groupSize j' = groupSize j ∧ windowOpensAt j' = windowOpensAt j
  ∧ createdAt j' = createdAt j.

(** The job objects of [h] are still there in [h'], each with the request
    it had and at least the attempts it had. *)
Definition evolves (h h' : list SniperJob) : Prop :=
  ∀ r j, h !! r = Some j →
         ∃ j', h' !! r = Some j' ∧ same_request j j' ∧ attempts j ≤ attempts j'.

(** Only the job object [r] may differ between [h] and [h']. *)
Definition touches (r : nat) (h h' : list SniperJob) : Prop :=
  length h' = length h
  ∧ (∀ r', r' ≠ r → h' !! r' = h !! r')
  ∧ evolves h h'.

(** What engine [e], working on the job object [r], leaves alone: the jobs
    map, the timers, the credentials, every other job object, every other
    engine, and the browser and abort controller registered for any other
    id. *)
Definition engine_frame (e r : nat) (st st' : State) : Prop :=
  jobs st' = jobs st ∧ timers st' = timers st ∧ credentials st' = credentials st
  ∧ clock st' = clock st
  ∧ touches r (heap st) (heap st')
  ∧ (∀ e', e' ≠ e → engines st' !! e' = engines st !! e')
  ∧ (∀ k, k ≠ id (deref r st) →
       browsers st' !! k = browsers st !! k
       ∧ abortControllers st' !! k = abortControllers st !! k).

(** The awaits of runSniperJob at which a claim, or the re-query of a
    fallback range, is in flight. *)
Definition claim_phase (pc : EnginePc) : bool :=
  match pc with
  | Claiming _ | FallbackPolling _ _ | FallbackClaiming _ _ => true
  | _ => false
  end.

(** The jobs map is keyed by the id of the job it holds, and no key occurs
    twice. *)
Definition keyed_by_id (st : State) : Prop :=
  Forall (λ p, ∃ j, heap st !! p.2 = Some j ∧ id j = p.1) (jobs st)
  ∧ NoDup (jobs st).*1.

Definition is_restart (ev : Event) : bool :=
  match ev with ProcessRestarts => true | _ => false end.

(** No event of the list is a restart of the process. *)
Definition no_restart (evs : list Event) : Prop :=
  forallb (λ ev, negb (is_restart ev)) evs = true.

(** Status, booked range and attempts of every job object are the same in
    both states. *)
Definition same_outcome (st st' : State) : Prop :=
  ∀ r, status (deref r st') = status (deref r st)
       ∧ bookedRange (deref r st') = bookedRange (deref r st)
       ∧ attempts (deref r st') = attempts (deref r st).

(** The jobs map is the same, and every job object is still there with its
    request. *)
Definition keeps_jobs (st st' : State) : Prop :=
  jobs st' = jobs st
  ∧ length (heap st') = length (heap st)
  ∧ evolves (heap st) (heap st').

(** ** A call on its own

    The asynchronous functions of the public API, each followed from its
    call to its completion with nothing else running in between: the list
    gives how its awaits settle, one after the other. *)

Section CallsOnTheirOwn.
Context {platform : Platform}.

Definition cancelJob_run (rev : Revision) (id_ : string) (replies : list Reply)
    (st : State) : State * CancelPc :=
  fold_left (λ sp r, cancelJob_resume rev id_ sp.2 r sp.1) replies (cancelJob rev id_ st).

(** The call of createJob becomes task number [length (tasks st)]. *)
Definition createJob_run (rev : Revision) (req : SniperJobRequest)
    (uuid localeString : string) (replies : list Reply) (st : State) : State :=
  fold_left (λ s r, task_resume rev (length (tasks st)) r s) replies
    (createJob rev req uuid localeString st).

(** The loop of loadAndScheduleJobs over the jobs read from disk. *)
Definition load_all (rev : Revision) (diskJobs : list SniperJob) (st : State) : State :=
  fold_left (load_one rev) diskJobs st.

End CallsOnTheirOwn.

(** Whether runSniperJob finds credentials for the job with this id. *)
Definition has_credentials (rev : Revision) (id_ : string) (st : State) : bool :=
  match rev with
  | EnvCredentials =>
      match getRecgovCredentials st with Returned _ => true | Thrown _ => false end
  | CredentialTable => negb (jobNeedsCredentials id_ st)
  end.

(** The pre-warm instant of a job, when its windowOpensAt parses. *)
Definition preWarmTime {platform : Platform} (windowOpensAt_ : string) : option Z :=
  (λ windowTime, windowTime - PRE_WARM_LEAD_MS) <$> Date_parse windowOpensAt_.

(** scheduleJob arms a timer: the pre-warm instant exists and is ahead. *)
Definition prewarm_ahead {platform : Platform} (windowOpensAt_ : string) (now : Z) : Prop :=
  ∃ t, preWarmTime windowOpensAt_ = Some t ∧ now < t.

(** When a timer set at [now] for the instant [t] is due: at [t], unless
    [t] is more than 2147483647 ms away; a timer cannot wait that long, and
    is then due 1 ms after [now]. *)
Definition timer_due (now t : Z) : Z :=
  if t - now <=? 2147483647 then t else now + 1.

(** * Properties of the availability query *)

Section AvailabilityFacts.
Context {platform : Platform}.

Lemma nights_between_done (current end_ : Z) :
  end_ ≤ current → nights_between current end_ = O.
Proof.
  intros Hle. unfold nights_between, msPerDay.
  assert ((end_ - current + 86400000 - 1) / 86400000 ≤ 0).
  { assert ((end_ - current + 86400000 - 1) / 86400000 < 1); [|lia].
    apply Z.div_lt_upper_bound; lia. }
  lia.
Qed.

Lemma nights_between_step (current end_ : Z) :
  current < end_ →
  nights_between current end_ = S (nights_between (current + msPerDay) end_).
Proof.
  intros Hlt. unfold nights_between, msPerDay.
  replace (end_ - current + 86400000 - 1) with ((end_ - current - 1) + 1 * 86400000) by lia.
  rewrite Z.div_add by lia.
  replace (end_ - (current + 86400000) + 86400000 - 1) with (end_ - current - 1) by lia.
  assert (0 ≤ (end_ - current - 1) / 86400000) by (apply Z.div_pos; lia).
  lia.
Qed.

Lemma nights_between_whole_days (current end_ n : Z) :
  0 ≤ n → end_ - current = n * msPerDay → nights_between current end_ = Z.to_nat n.
Proof.
  intros Hn Heq. unfold nights_between. f_equal.
  replace (end_ - current + msPerDay - 1) with ((msPerDay - 1) + n * msPerDay) by lia.
  unfold msPerDay. rewrite Z.div_add by lia. rewrite Z.div_small; lia.
Qed.

(** With enough fuel the loop runs until [current < end_] fails: it pushes
    one text per day, from [current] on. *)
Lemma expand_loop_enough (fuel : nat) :
  ∀ current end_,
    (nights_between current end_ ≤ fuel)%nat →
    expand_loop fuel current end_
    = map (λ k : nat, night_text (current + Z.of_nat k * msPerDay))
        (seq 0 (nights_between current end_)).
Proof.
  induction fuel as [|fuel IH]; intros current end_ Hfuel.
  - assert (nights_between current end_ = O) as -> by lia. reflexivity.
  - simpl. destruct (Z.ltb_spec current end_) as [Hlt|Hge].
    + rewrite (nights_between_step _ _ Hlt) in Hfuel |- *.
      rewrite IH by lia. simpl. f_equal.
      * unfold night_text. do 2 f_equal. lia.
      * rewrite <- seq_shift, map_map. apply map_ext. intros k.
        unfold night_text. do 2 f_equal. lia.
    + rewrite nights_between_done by lia. reflexivity.
Qed.

Lemma expandRange_parsed (range : DateRange) (start end_ : Z) :
  Date_parse (startDate range +:+ "T00:00:00.000Z") = Some start →
  Date_parse (endDate range +:+ "T00:00:00.000Z") = Some end_ →
  expandRange range
  = map (λ k : nat, night_text (start + Z.of_nat k * msPerDay))
      (seq 0 (nights_between start end_)).
Proof.
  intros Hs He. unfold expandRange. rewrite Hs, He.
  apply expand_loop_enough. lia.
Qed.

Lemma expandRange_empty (range : DateRange) :
  (∀ start end_,
     Date_parse (startDate range +:+ "T00:00:00.000Z") = Some start →
     Date_parse (endDate range +:+ "T00:00:00.000Z") = Some end_ →
     end_ ≤ start) →
  expandRange range = [].
Proof.
  intros Hle. unfold expandRange.
  destruct (Date_parse (startDate range +:+ _)) as [start|]; [|reflexivity].
  destruct (Date_parse (endDate range +:+ _)) as [end_|]; [|reflexivity].
  rewrite nights_between_done by (apply Hle; reflexivity). reflexivity.
Qed.

Lemma night_open_spec (availByDate : gmap string Z) (d : string) :
  (0 <? default 0 (availByDate !! d)) = true ↔ night_open availByDate d.
Proof.
  unfold night_open. destruct (availByDate !! d) as [n|]; simpl.
  - rewrite Z.ltb_lt. split; [eauto|]. intros (m & [= <-] & ?). done.
  - split; [intros [=]|]. intros (m & [=] & ?).
Qed.

Lemma allAvailable_true (availByDate : gmap string Z) (nights : list string) :
  allAvailable availByDate nights = true ↔ ∀ d, d ∈ nights → night_open availByDate d.
Proof.
  unfold allAvailable. rewrite forallb_forall. split.
  - intros H d Hd. apply night_open_spec, H, list_elem_of_In, Hd.
  - intros H d Hd. apply night_open_spec, H, list_elem_of_In, Hd.
Qed.

Lemma allAvailable_false (availByDate : gmap string Z) (range : DateRange) :
  allAvailable availByDate (expandRange range) = false →
  some_night_closed availByDate range.
Proof.
  unfold allAvailable, some_night_closed.
  induction (expandRange range) as [|d nights IH]; simpl; [discriminate|].
  rewrite andb_false_iff. intros [Hd|Hrest].
  - exists d. split; [left|].
    destruct (availByDate !! d) as [n|]; simpl in Hd; [right|left; done].
    exists n. split; [done|]. apply Z.ltb_ge in Hd. lia.
  - destruct (IH Hrest) as (d' & Hin & Hclosed). exists d'. split; [right|]; done.
Qed.

Lemma some_night_closed_not_fully (availByDate : gmap string Z) (range : DateRange) :
  some_night_closed availByDate range → ¬ fully_available availByDate range.
Proof.
  intros (d & Hin & Hclosed) Hall. destruct (Hall d Hin) as (n & Hn & Hpos).
  destruct Hclosed as [Hnone|(m & Hm & Hle)]; [congruence|].
  assert (n = m) by congruence. lia.
Qed.

(** The loop of [checkAvailability] returns the first range, in list order,
    that is fully available. *)
Lemma firstAvailable_spec (availByDate : gmap string Z) (ranges : list DateRange) :
  match firstAvailable availByDate ranges with
  | Some range =>
      ∃ earlier later,
        ranges = earlier ++ range :: later
        ∧ fully_available availByDate range
        ∧ ∀ r, r ∈ earlier → some_night_closed availByDate r
  | None => ∀ r, r ∈ ranges → some_night_closed availByDate r
  end.
Proof.
  induction ranges as [|range rest IH]; simpl.
  - intros r Hr. inversion Hr.
  - destruct (allAvailable availByDate (expandRange range)) eqn:Hall.
    + exists [], rest. split; [done|]. split.
      * unfold fully_available. by apply allAvailable_true.
      * intros r Hr. inversion Hr.
    + apply allAvailable_false in Hall.
      destruct (firstAvailable availByDate rest) as [found|].
      * destruct IH as (earlier & later & -> & Hfound & Hearlier).
        exists (range :: earlier), later. split; [done|]. split; [done|].
        intros r Hr. apply elem_of_cons in Hr as [->|Hr]; auto.
      * intros r Hr. apply elem_of_cons in Hr as [->|Hr]; auto.
Qed.

Lemma firstAvailable_elem (availByDate : gmap string Z) (ranges : list DateRange)
    (range : DateRange) :
  firstAvailable availByDate ranges = Some range → range ∈ ranges.
Proof.
  intros H. pose proof (firstAvailable_spec availByDate ranges) as Hspec.
  rewrite H in Hspec. destruct Hspec as (earlier & later & -> & _).
  apply elem_of_app. right. apply elem_of_cons. by left.
Qed.

Lemma checkAvailability_elem (permitId_ divisionId_ : string) (ranges : list DateRange)
    (fetch : string → FetchOutcome) (range : DateRange) :
  checkAvailability permitId_ divisionId_ ranges fetch = Returned (Some range) →
  range ∈ ranges.
Proof.
  unfold checkAvailability. intros H.
  destruct (queryUrl permitId_ ranges); [|discriminate].
  destruct (fetch a); try discriminate.
  destruct (availability !! divisionId_); [|by destruct (bool_decide _)].
  injection H as H. eapply firstAvailable_elem, H.
Qed.

(** *** The code against the words of the specification *)

Lemma nights_between_lt (k : nat) :
  ∀ current end_,
    (k < nights_between current end_)%nat ↔ current + Z.of_nat k * msPerDay < end_.
Proof.
  induction k as [|k IH]; intros current end_.
  - destruct (Z.le_gt_cases end_ current) as [Hle|Hgt].
    + rewrite (nights_between_done _ _ Hle). split; lia.
    + rewrite (nights_between_step _ _ Hgt). split; lia.
  - destruct (Z.le_gt_cases end_ current) as [Hle|Hgt].
    + rewrite (nights_between_done _ _ Hle). unfold msPerDay. split; lia.
    + rewrite (nights_between_step _ _ Hgt).
      specialize (IH (current + msPerDay) end_). unfold msPerDay in *. split; lia.
Qed.

(** The texts expandRange pushes are the nights of the range. *)
Lemma expandRange_nights (range : DateRange) (d : string) :
  d ∈ expandRange range ↔ night_of range d.
Proof.
  unfold night_of. split.
  - intros Hd. unfold expandRange in Hd.
    destruct (Date_parse (startDate range +:+ _)) as [start|] eqn:Hs;
      [|by apply elem_of_nil in Hd].
    destruct (Date_parse (endDate range +:+ _)) as [end_|] eqn:He;
      [|by apply elem_of_nil in Hd].
    rewrite expand_loop_enough in Hd by lia.
    apply list_elem_of_In, in_map_iff in Hd as (k & <- & Hk).
    apply in_seq in Hk. exists start, end_, k. repeat split; try done.
    apply nights_between_lt. lia.
  - intros (start & end_ & k & Hs & He & Hlt & ->).
    rewrite (expandRange_parsed _ _ _ Hs He).
    apply list_elem_of_In, in_map_iff. exists k. split; [done|].
    apply in_seq. apply nights_between_lt in Hlt. lia.
Qed.

Lemma buildAvailByDate_snoc (entries : list (string * DateAvailability))
    (e : string * DateAvailability) :
  buildAvailByDate (entries ++ [e])
  = <[String.substring 0 10 e.1 := remaining e.2]> (buildAvailByDate entries).
Proof. unfold buildAvailByDate. by rewrite fold_left_app. Qed.

(** The lookup the code builds is the table of the division. *)
Lemma buildAvailByDate_table (division : list (string * DateAvailability)) (d : string) :
  buildAvailByDate division !! d = table_remaining division d.
Proof.
  unfold table_remaining.
  induction division as [|e entries IH] using rev_ind; [done|].
  rewrite buildAvailByDate_snoc, filter_app, filter_cons, filter_nil.
  destruct (decide (String.substring 0 10 e.1 = d)) as [<-|Hne].
  - by rewrite lookup_insert_eq, last_snoc.
  - by rewrite lookup_insert_ne, app_nil_r.
Qed.

Lemma fully_available_capacity (division : list (string * DateAvailability))
    (range : DateRange) :
  fully_available (buildAvailByDate division) range ↔ has_capacity division range.
Proof.
  unfold fully_available, has_capacity, night_open. split.
  - intros H d Hd. rewrite <- buildAvailByDate_table. apply H, expandRange_nights, Hd.
  - intros H d Hd. rewrite buildAvailByDate_table. apply H, expandRange_nights, Hd.
Qed.

Lemma some_night_closed_capacity (division : list (string * DateAvailability))
    (range : DateRange) :
  some_night_closed (buildAvailByDate division) range ↔ lacks_capacity division range.
Proof.
  unfold some_night_closed, lacks_capacity. split.
  - intros (d & Hd & H). exists d. rewrite <- buildAvailByDate_table.
    split; [apply expandRange_nights, Hd|exact H].
  - intros (d & Hd & H). exists d. rewrite buildAvailByDate_table.
    split; [apply expandRange_nights, Hd|exact H].
Qed.

Lemma lacks_capacity_not_has (division : list (string * DateAvailability))
    (range : DateRange) :
  lacks_capacity division range → ¬ has_capacity division range.
Proof.
  intros (d & Hd & Hclosed) Hall. destruct (Hall d Hd) as (n & Hn & Hpos).
  destruct Hclosed as [Hnone|(m & Hm & Hle)]; [congruence|].
  assert (n = m) by congruence. lia.
Qed.

(** C1.  Once the request has been answered with the availability of the
    division, checkAvailability returns.  It returns the first range, in list
    order, every night of which has a remaining capacity above 0 in the table
    of the division: that range has no night at 0 or absent from the table,
    and every range before it has one.  It returns none when every range has
    such a night, and in particular whenever no range qualifies.  The nights
    of a range and the table are those of the specification ([night_of],
    [table_remaining]), not the functions of the code. *)
Theorem checkAvailability_first_fully_available
    (permitId_ divisionId_ : string) (ranges : list DateRange)
    (fetch : string → FetchOutcome) (url : string)
    (availability : gmap string (list (string * DateAvailability)))
    (division : list (string * DateAvailability)) :
  queryUrl permitId_ ranges = Returned url →
  fetch url = Body availability →
  availability !! divisionId_ = Some division →
  ∃ result,
    checkAvailability permitId_ divisionId_ ranges fetch = Returned result
    ∧ match result with
      | Some range =>
          ∃ earlier later,
            ranges = earlier ++ range :: later
            ∧ has_capacity division range
            ∧ ¬ lacks_capacity division range
            ∧ ∀ r, r ∈ earlier → lacks_capacity division r
      | None =>
          ∀ r, r ∈ ranges → lacks_capacity division r ∧ ¬ has_capacity division r
      end
    ∧ ((∀ r, r ∈ ranges → ¬ has_capacity division r) → result = None).
Proof.
  intros Hurl Hfetch Hdiv. unfold checkAvailability.
  rewrite Hurl, Hfetch, Hdiv. eexists. split; [reflexivity|].
  pose proof (firstAvailable_spec (buildAvailByDate division) ranges) as Hspec.
  destruct (firstAvailable (buildAvailByDate division) ranges) as [range|].
  - destruct Hspec as (earlier & later & Heq & Hfull & Hearlier).
    apply fully_available_capacity in Hfull. split.
    + exists earlier, later. split; [done|]. split; [done|]. split.
      * intros Hclosed. by apply lacks_capacity_not_has in Hclosed.
      * intros r Hr. by apply some_night_closed_capacity, Hearlier.
    + intros Hnone. exfalso. apply (Hnone range); [|done].
      rewrite Heq. apply elem_of_app. right. by left.
  - split; [|done]. intros r Hr.
    assert (lacks_capacity division r) as Hl by (by apply some_night_closed_capacity, Hspec).
    split; [done|]. by apply lacks_capacity_not_has.
Qed.

(** C8.  For a range whose end date lies [n] whole calendar days after its
    start date ([n] > 0), expandRange yields exactly [n] dates; the date at
    position [k] is the calendar date [k] days after the start date, so the
    list starts at the start date, runs through consecutive days and stops
    before the end date.  The list is a function of the two dates alone. *)
Theorem expandRange_consecutive_nights (range : DateRange) (start end_ n : Z) :
  Date_parse (startDate range +:+ "T00:00:00.000Z") = Some start →
  Date_parse (endDate range +:+ "T00:00:00.000Z") = Some end_ →
  start < end_ →
  end_ - start = n * msPerDay →
  length (expandRange range) = Z.to_nat n
  ∧ (∀ k : nat, (k < Z.to_nat n)%nat →
       expandRange range !! k = Some (night_text (start + Z.of_nat k * msPerDay))
       ∧ start + Z.of_nat k * msPerDay < end_)
  ∧ expandRange range !! Z.to_nat n = None
  ∧ (∀ other : DateRange,
       Date_parse (startDate other +:+ "T00:00:00.000Z") = Some start →
       Date_parse (endDate other +:+ "T00:00:00.000Z") = Some end_ →
       expandRange other = expandRange range).
Proof.
  intros Hs He Hlt Hn.
  assert (0 < n) as Hpos by (unfold msPerDay in *; lia).
  rewrite (expandRange_parsed _ _ _ Hs He).
  rewrite (nights_between_whole_days start end_ n) by lia.
  repeat split.
  - by rewrite length_map, length_seq.
  - rewrite list_lookup_fmap, lookup_seq_lt by done. reflexivity.
  - unfold msPerDay in *. nia.
  - apply lookup_ge_None. by rewrite length_map, length_seq.
  - intros other Hs' He'. rewrite (expandRange_parsed _ _ _ Hs' He').
    by rewrite (nights_between_whole_days start end_ n) by lia.
Qed.

(** A range one of whose dates is no date, or whose end date is not after
    its start date, has no night: expandRange gives the empty list, the
    all-nights test holds of it vacuously, and the range, listed first, is
    the one selected, whatever the table holds. *)
Lemma no_night_selected (range : DateRange) (availByDate : gmap string Z)
    (rest : list DateRange) :
  (∀ start end_,
     Date_parse (startDate range +:+ "T00:00:00.000Z") = Some start →
     Date_parse (endDate range +:+ "T00:00:00.000Z") = Some end_ →
     end_ ≤ start) →
  expandRange range = []
  ∧ allAvailable availByDate (expandRange range) = true
  ∧ firstAvailable availByDate (range :: rest) = Some range.
Proof.
  intros Hle. assert (expandRange range = []) as Hnil by (by apply expandRange_empty).
  split; [done|]. simpl. by rewrite Hnil.
Qed.

(** A range whose end date is after its start date has the start date as
    its first night, and is selected only if that night is open. *)
Lemma first_night_selected (range : DateRange) (start end_ : Z)
    (availByDate : gmap string Z) :
  Date_parse (startDate range +:+ "T00:00:00.000Z") = Some start →
  Date_parse (endDate range +:+ "T00:00:00.000Z") = Some end_ →
  start < end_ →
  expandRange range ≠ []
  ∧ expandRange range !! O = Some (night_text start)
  ∧ ∀ ranges, firstAvailable availByDate ranges = Some range →
               night_open availByDate (night_text start).
Proof.
  intros Hs He Hlt.
  assert (expandRange range !! O = Some (night_text start)) as Hfirst.
  { rewrite (expandRange_parsed _ _ _ Hs He), (nights_between_step _ _ Hlt).
    simpl. unfold night_text. do 3 f_equal. lia. }
  split; [|split; [done|]].
  - intros Hnil. rewrite Hnil in Hfirst. discriminate.
  - intros ranges Hsel.
    pose proof (firstAvailable_spec availByDate ranges) as Hspec.
    rewrite Hsel in Hspec. destruct Hspec as (_ & _ & _ & Hfull & _).
    apply Hfull. eapply list_elem_of_lookup_2, Hfirst.
Qed.

End AvailabilityFacts.

(** * Properties of the scheduler and of the engine *)

Section EngineFacts.
Context {platform : Platform}.

(** ** Job objects under updateJob *)

Lemma updateJob_heap (job : nat) (u : Updates) (st : State) :
  heap (updateJob job u st)
  = alter (applyUpdates u (Date_toISOString (clock st))) job (heap st).
Proof. reflexivity. Qed.

Lemma updateJob_lookup (job : nat) (u : Updates) (st : State) (j : SniperJob) :
  heap st !! job = Some j →
  heap (updateJob job u st) !! job
  = Some (applyUpdates u (Date_toISOString (clock st)) j).
Proof.
  intros Hj. rewrite updateJob_heap, list_lookup_alter_eq, Hj. reflexivity.
Qed.

Lemma deref_lookup (job : nat) (st : State) (j : SniperJob) :
  heap st !! job = Some j → deref job st = j.
Proof. unfold deref. by intros ->. Qed.

(** ** Credentials *)

Lemma getRecgovCredentials_absent (st : State) :
  truthy (RECGOV_EMAIL st) = None ∨ truthy (RECGOV_PASSWORD st) = None →
  getRecgovCredentials st = Thrown missing_env.
Proof.
  unfold getRecgovCredentials.
  intros [->| ->]; [done|]. by destruct (truthy (RECGOV_EMAIL st)).
Qed.

(** What runSniperJob does when it finds no credentials. *)
Lemma runSniperJob_without_credentials (rev : Revision) (st : State) (r : nat)
    (job : SniperJob) :
  heap st !! r = Some job →
  credentials_absent rev st job →
  runSniperJob rev r st
  = updateJob r
      match rev with
      | EnvCredentials => status_message failed missing_env
      | CredentialTable => just_message missing_entry
      end st.
Proof.
  intros Hjob Habs. unfold runSniperJob. destruct rev; simpl in Habs.
  - by rewrite (getRecgovCredentials_absent _ Habs).
  - by rewrite (deref_lookup _ _ _ Hjob), Habs.
Qed.

(** C3, as the code has it.  When the trigger of a pending job fires while
    its credentials are absent, the job does not become pre-warming and no
    engine, abort controller or browser is created for it.  With the
    credential table the job stays pending and only its message (and
    updatedAt) change; with credentials from the environment the job
    becomes failed, its message being the error of getRecgovCredentials. *)
Theorem trigger_without_credentials (rev : Revision) (st : State) (id_ : string)
    (t : Timer) (job : SniperJob) :
  timers st !! id_ = Some t →
  active t = true →
  due t ≤ clock st →
  heap st !! timer_job t = Some job →
  status job = pending →
  credentials_absent rev st job →
  let st' := step rev (TimerFires id_) st in
  let now := Date_toISOString (clock st) in
  engines st' = engines st
  ∧ abortControllers st' = abortControllers st
  ∧ browsers st' = browsers st
  ∧ chromium st' = chromium st
  ∧ ∃ job',
      heap st' !! timer_job t = Some job'
      ∧ status job' ≠ pre_warming
      ∧ match rev with
        | CredentialTable =>
            status job' = pending
            ∧ job' = applyUpdates (just_message missing_entry) now job
        | EnvCredentials =>
            status job' = failed
            ∧ job' = applyUpdates (status_message failed missing_env) now job
        end.
Proof.
  intros Ht Hact Hdue Hjob Hpending Habs. simpl.
  unfold timer_fires. rewrite Ht, Hact.
  assert ((due t <=? clock st) = true) as -> by (apply Z.leb_le; lia). simpl.
  rewrite (runSniperJob_without_credentials rev _ (timer_job t) job); [|done|by destruct rev].
  repeat split; try reflexivity.
  eexists. split; [apply updateJob_lookup; exact Hjob|].
  destruct rev; simpl; rewrite ?Hpending; done.
Qed.

(** ** Start-up reconciliation *)










(** ** Transient errors *)

(** In the watch loop a poll that throws is caught inside the loop: the
    status is left alone and the engine sleeps until the next poll. *)
Lemma polled_error_retries (st : State) (e : nat) (en : Engine) (watchDeadline : Z)
    (o : FetchOutcome) (msg : string) (job : SniperJob) :
  engines st !! e = Some en →
  heap st !! e_job en = Some job →
  checkAvailability (permitId job) (divisionId job) (desiredDateRanges job) (λ _, o)
  = Thrown msg →
  let st' := polled e en watchDeadline o st in
  status (deref (e_job en) st') = status job
  ∧ e_pc <$> engines st' !! e
    = Some (PollSleep watchDeadline (negb (e_aborted en)) (clock st + POLL_INTERVAL_MS)).
Proof.
  intros Hen Hjob Hcheck. simpl. unfold polled.
  rewrite (deref_lookup _ _ _ Hjob), Hcheck. split.
  - unfold deref. simpl. rewrite !list_lookup_alter_eq, Hjob. reflexivity.
  - simpl. by rewrite list_lookup_alter_eq, Hen.
Qed.

(** In the fallback loop the re-query is not guarded: when it throws, the
    catch block of runSniperJob fails the job. *)
Lemma fallback_error_fails (st : State) (e : nat) (en : Engine)
    (fallbackRange : DateRange) (rest : list DateRange)
    (o : FetchOutcome) (msg : string) (job : SniperJob) :
  engines st !! e = Some en →
  e_pc en = FallbackPolling fallbackRange rest →
  e_aborted en = false →
  heap st !! e_job en = Some job →
  checkAvailability (permitId job) (divisionId job) [fallbackRange] (λ _, o) = Thrown msg →
  let st' := engine_resume e (Fetched o) st in
  status (deref (e_job en) st') = failed
  ∧ message (deref (e_job en) st') = "Sniper failed: " +:+ msg.
Proof.
  intros Hen Hpc Hab Hjob Hcheck. simpl. unfold engine_resume.
  rewrite Hen, Hpc, (deref_lookup _ _ _ Hjob), Hcheck.
  unfold catch_. rewrite Hab. unfold deref. simpl.
  by rewrite list_lookup_alter_eq, Hjob.
Qed.

(** ** Release of the session *)

(** The finally block looks at the status of the job at that moment: in-cart
    leaves the registry and the browser alone; any other status closes the
    browser registered for the job, if there is one. *)
Lemma finally_releases (st : State) (e : nat) (en : Engine) (job : SniperJob) :
  heap st !! e_job en = Some job →
  let st' := finally_ e en st in
  (status job = in_cart → browsers st' = browsers st ∧ chromium st' = chromium st)
  ∧ (status job ≠ in_cart →
     match browsers st !! id job with
     | Some b => chromium st' = alter S b (chromium st)
                 ∧ (engines st !! e = Some en → e_pc <$> engines st' !! e = Some Closing)
     | None => chromium st' = chromium st
     end).
Proof.
  intros Hjob. simpl. unfold finally_. rewrite (deref_lookup _ _ _ Hjob). split.
  - intros Hs. by destruct (decide (status job = in_cart)).
  - intros Hs. destruct (decide (status job = in_cart)); [done|]. simpl.
    destruct (browsers st !! id job); [|done]. split; [done|].
    intros Hen. simpl. by rewrite list_lookup_alter_eq, Hen.
Qed.

(** cancelJob, once its close has settled, marks the job cancelled. *)
Lemma cancel_finish_cancelled (rev : Revision) (id_ : string) (r : nat) (st : State)
    (job : SniperJob) :
  heap st !! r = Some job →
  status (deref r (cancel_finish rev id_ r st).1) = cancelled
  ∧ message (deref r (cancel_finish rev id_ r st).1) = "Cancelled by user.".
Proof.
  intros Hjob. unfold cancel_finish, deref. simpl.
  destruct rev; simpl; by rewrite list_lookup_alter_eq, Hjob.
Qed.


(** ** Cancellation while the engine runs *)

(** A claim that reports "booked" marks the job in-cart whether or not the
    signal has been aborted in the meantime. *)
Lemma claimed_ignores_abort (st : State) (e : nat) (en : Engine)
    (foundRange : DateRange) (job : SniperJob) :
  engines st !! e = Some en →
  e_pc en = Claiming foundRange →
  heap st !! e_job en = Some job →
  let st' := engine_resume e (Claimed true) st in
  status (deref (e_job en) st') = in_cart
  ∧ bookedRange (deref (e_job en) st') = Some foundRange
  ∧ browsers st' = browsers st ∧ chromium st' = chromium st.
Proof.
  intros Hen Hpc Hjob. simpl. unfold engine_resume. rewrite Hen, Hpc.
  unfold booked, deref. simpl. by rewrite list_lookup_alter_eq, Hjob.
Qed.

(** cancelJob during a sleep of the engine, for every state: when the
    engine of the job sleeps with its abort listener in place and the browser
    of the job is registered, cancelJob calls close, and the engine, resumed
    by the rejected sleep before that close has settled, calls close on the
    same browser again. *)
Lemma cancel_during_sleep_closes_twice (rev : Revision) (st : State) (id_ : string)
    (r e b : nat) (en : Engine) (job : SniperJob) (watchDeadline wake : Z)
    (reply : Reply) :
  jobs_get id_ (jobs st) = Some r →
  abortControllers st !! id_ = Some e →
  engines st !! e = Some en →
  e_job en = r →
  e_pc en = PollSleep watchDeadline true wake →
  heap st !! r = Some job →
  id job = id_ →
  status job ≠ in_cart →
  browsers st !! id_ = Some b →
  settled reply = true →
  let st1 := (cancelJob rev id_ st).1 in
  let st2 := engine_resume e reply st1 in
  (cancelJob rev id_ st).2 = CancelClosing r
  ∧ chromium st1 = alter S b (chromium st)
  ∧ browsers st1 !! id_ = Some b
  ∧ chromium st2 = alter S b (alter S b (chromium st))
  ∧ e_pc <$> engines st2 !! e = Some Closing.
Proof.
  intros Hget Hac Hen Hr Hpc Hjob Hid Hstatus Hb Hreply. simpl.
  unfold cancelJob. rewrite Hget. simpl. rewrite Hac. simpl. rewrite Hb. simpl.
  repeat split; try done.
  - unfold engine_resume. simpl. rewrite list_lookup_alter_eq, Hen. simpl. rewrite Hpc.
    destruct reply; try discriminate Hreply.
    all: unfold sleep_settles; simpl; unfold catch_; simpl; unfold finally_, deref; simpl.
    all: rewrite Hr, Hjob; simpl.
    all: destruct (decide (status job = in_cart)); [done|].
    all: rewrite Hid, Hb; reflexivity.
  - unfold engine_resume. simpl. rewrite list_lookup_alter_eq, Hen. simpl. rewrite Hpc.
    destruct reply; try discriminate Hreply.
    all: unfold sleep_settles; simpl; unfold catch_; simpl; unfold finally_, deref; simpl.
    all: rewrite Hr, Hjob; simpl.
    all: destruct (decide (status job = in_cart)); [done|].
    all: rewrite Hid, Hb; simpl.
    all: by rewrite !list_lookup_alter_eq, Hen.
Qed.


End EngineFacts.

Section DeleteFacts.
Context {platform : Platform}.

Lemma deleteJob_resume_never_false (rev : Revision) (id_ : string) (pc : DeletePc)
    (r : Reply) (st : State) :
  never_false pc → never_false (deleteJob_resume rev id_ pc r st).2.
Proof.
  unfold never_false. intros Hpc.
  destruct pc as [[job|s|[b|msg]]|s|c]; simpl; try done.
  - destruct s, r; done.
  - destruct s, r; done.
Qed.

Lemma deleteJob_resume_progress (rev : Revision) (id_ : string) (pc : DeletePc)
    (st : State) (n : nat) :
  awaits_left pc = Some n →
  awaits_left (deleteJob_resume rev id_ pc Resolved st).2 = Some (Nat.pred n).
Proof.
  destruct pc as [[job|[|l]|[b|msg]]|[|l]|[[|]|msg]]; simpl; intros [= <-]; done.
Qed.

Lemma deleteJob_run_never_false (rev : Revision) (id_ : string) (replies : list Reply) :
  ∀ sp : State * DeletePc,
    never_false sp.2 →
    never_false (fold_left (λ sp r, deleteJob_resume rev id_ sp.2 r sp.1) replies sp).2.
Proof.
  induction replies as [|r replies IH]; intros sp Hsp; simpl; [done|].
  apply IH, deleteJob_resume_never_false, Hsp.
Qed.

Lemma deleteJob_run_progress (rev : Revision) (id_ : string) (replies : list Reply) :
  ∀ (sp : State * DeletePc) (n : nat),
    Forall (λ r, r = Resolved) replies →
    awaits_left sp.2 = Some n →
    awaits_left (fold_left (λ sp r, deleteJob_resume rev id_ sp.2 r sp.1) replies sp).2
    = Some (n - length replies)%nat.
Proof.
  induction replies as [|r replies IH]; intros sp n Hall Hn; simpl.
  - by rewrite Nat.sub_0_r.
  - inversion Hall as [|? ? -> Hall']; subst.
    rewrite (IH _ (Nat.pred n)); [f_equal; lia|done|].
    by apply deleteJob_resume_progress.
Qed.

Lemma deleteJob_awaits (rev : Revision) (id_ : string) (st : State) :
  ∃ n, awaits_left (deleteJob rev id_ st).2 = Some n ∧ (n ≤ 6)%nat
       ∧ (jobs_get id_ (jobs st) = None → n = 3%nat).
Proof.
  unfold deleteJob, cancelJob.
  destruct (jobs_get id_ (jobs st)) as [job|]; [|exists 3%nat; simpl; auto with lia].
  match goal with |- context [browsers ?s !! id_] => destruct (browsers s !! id_) end;
    simpl; eexists; (split; [reflexivity|]); split; (lia || done).
Qed.

Lemma awaits_left_zero (pc : DeletePc) :
  awaits_left pc = Some 0%nat → pc = DeleteDone (Returned true).
Proof. destruct pc as [[job|[|l]|[b|msg]]|[|l]|[[|]|msg]]; simpl; by intros [=]. Qed.

(** C9.  deleteJob never returns false: whatever the id and however its
    awaits settle, it returns true or rejects with the error of a failed
    save.  It does return true when no await rejects, after at most six of
    them, and after three for an id that no job has: the result of cancelJob
    is ignored.  The DELETE route therefore answers { deleted: true }; its
    404 branch, which needs a falsy result, is not taken. *)
Theorem deleteJob_returns_true (rev : Revision) (st : State) (id_ : string) :
  (∀ replies c,
     (deleteJob_run rev id_ replies st).2 = DeleteDone c →
     (c = Returned true ∨ ∃ msg, c = Thrown msg)
     ∧ ∀ ok, c = Returned ok → delete_route ok = (200, DeletedBody true))
  ∧ (∀ replies,
       Forall (λ r, r = Resolved) replies → (6 ≤ length replies)%nat →
       (deleteJob_run rev id_ replies st).2 = DeleteDone (Returned true))
  ∧ (jobs_get id_ (jobs st) = None →
     (deleteJob rev id_ st).2 = DeleteCancelling (CancelDone (Returned false))
     ∧ (deleteJob_run rev id_ [Resolved; Resolved; Resolved] st).2
       = DeleteDone (Returned true)).
Proof.
  split; [|split].
  - intros replies c Hdone.
    assert (never_false (deleteJob_run rev id_ replies st).2) as Hnf.
    { apply deleteJob_run_never_false. unfold deleteJob, never_false.
      by destruct (cancelJob rev id_ st). }
    rewrite Hdone in Hnf. unfold never_false in Hnf.
    destruct c as [[|]|msg]; [| congruence |].
    + split; [by left|]. by intros ok [= <-].
    + split; [right; by eexists|]. by intros ok [=].
  - intros replies Hall Hlen.
    destruct (deleteJob_awaits rev id_ st) as (n & Hn & Hle & _).
    apply awaits_left_zero. unfold deleteJob_run.
    rewrite (deleteJob_run_progress _ _ _ _ n Hall Hn). f_equal. lia.
  - intros Hnone. split.
    + unfold deleteJob, cancelJob. by rewrite Hnone.
    + destruct (deleteJob_awaits rev id_ st) as (n & Hn & _ & H3).
      apply awaits_left_zero. unfold deleteJob_run.
      rewrite (deleteJob_run_progress _ _ _ _ n); [|by repeat constructor|done].
      rewrite (H3 Hnone). reflexivity.
Qed.

End DeleteFacts.

(** * The booked range is one of the desired ranges *)

Lemma stable_refl (h : list SniperJob) : stable h h.
Proof. intros r j Hj. eauto. Qed.

Lemma stable_alter (f : SniperJob → SniperJob) (i : nat) (h : list SniperJob) :
  (∀ j, desiredDateRanges (f j) = desiredDateRanges j) → stable h (alter f i h).
Proof.
  intros Hf r j Hj. destruct (decide (i = r)) as [->|Hne].
  - exists (f j). by rewrite list_lookup_alter_eq, Hj.
  - exists j. by rewrite list_lookup_alter_ne.
Qed.

Lemma stable_app (h : list SniperJob) (l : list SniperJob) : stable h (h ++ l).
Proof. intros r j Hj. exists j. split; [|done]. by apply lookup_app_l_Some. Qed.

Lemma stable_is_Some (h h' : list SniperJob) (r : nat) :
  stable h h' → is_Some (h !! r) → is_Some (h' !! r).
Proof. intros Hst [j Hj]. destruct (Hst r j Hj) as (j' & Hj' & _). eauto. Qed.

Lemma ok_engine_stable (h h' : list SniperJob) (en : Engine) :
  stable h h' → ok_engine h en → ok_engine h' en.
Proof.
  intros Hst (j & Hj & Hpc). destruct (Hst _ _ Hj) as (j' & Hj' & Hd).
  exists j'. by rewrite Hd.
Qed.

Lemma ok_task_stable (h h' : list SniperJob) (t : Task) :
  stable h h' → ok_task h t → ok_task h' t.
Proof.
  intros Hst. destruct t as [job s| | | |]; simpl; try done.
  intros [Hjob Hs]. split; [|done]. by eapply stable_is_Some.
Qed.

Lemma ok_job_blank : ok_job blank.
Proof. intros r [=]. Qed.

Lemma ok_job_deref (r : nat) (st : State) : Forall ok_job (heap st) → ok_job (deref r st).
Proof.
  intros Hh. unfold deref. destruct (heap st !! r) as [j|] eqn:Hj; simpl.
  - eapply Forall_lookup_1; eauto.
  - apply ok_job_blank.
Qed.

Lemma ok_jobs_values (st : State) : Forall ok_job (heap st) → Forall ok_job (jobs_values st).
Proof.
  intros Hh. unfold jobs_values. apply Forall_forall. intros j Hj.
  apply list_elem_of_In, in_map_iff in Hj as (p & <- & _). by apply ok_job_deref.
Qed.

(** A state that differs in the heap only, by a stable change. *)
Lemma Inv_heap (st st' : State) :
  Inv st →
  stable (heap st) (heap st') →
  Forall ok_job (heap st') →
  disk st' = disk st → published st' = published st → engines st' = engines st →
  tasks st' = tasks st → timers st' = timers st → jobs st' = jobs st →
  Inv st'.
Proof.
  intros [Hh Hd Hp He Ht Hti Hj] Hst Hh' Ed Ep Ee Et Eti Ej.
  split; rewrite ?Ed, ?Ep, ?Ee, ?Et, ?Eti, ?Ej; try done.
  - eapply Forall_impl; [exact He|]. intros en. by apply ok_engine_stable.
  - eapply Forall_impl; [exact Ht|]. intros t. by apply ok_task_stable.
  - eapply map_Forall_impl; [exact Hti|]. intros i t. by apply stable_is_Some.
  - eapply Forall_impl; [exact Hj|]. intros p. by apply stable_is_Some.
Qed.

Lemma Inv_frame (st st' : State) :
  Inv st →
  heap st' = heap st → disk st' = disk st → published st' = published st →
  engines st' = engines st → tasks st' = tasks st → timers st' = timers st →
  jobs st' = jobs st →
  Inv st'.
Proof.
  intros HI Eh. intros. apply (Inv_heap st); try done.
  - rewrite Eh. apply stable_refl.
  - rewrite Eh. apply HI.
Qed.

Lemma Inv_notify (j : SniperJob) (st : State) : Inv st → ok_job j → Inv (notify j st).
Proof.
  intros [Hh Hd Hp He Ht Hti Hj] Hok. split; simpl; try done.
  apply Forall_app. split; [done|]. by repeat constructor.
Qed.

Section InvariantSteps.
Context {platform : Platform}.

Lemma ok_updates_status (desired : list DateRange) (s : SniperStatus) (m : string) :
  ok_updates desired (status_message s m).
Proof. intros r [=]. Qed.

Lemma ok_updates_message (desired : list DateRange) (m : string) :
  ok_updates desired (just_message m).
Proof. intros r [=]. Qed.

Lemma ok_updates_in_cart (desired : list DateRange) (r : DateRange) (m : string) :
  r ∈ desired → ok_updates desired (in_cart_update r m).
Proof. intros Hr x [= <-]. done. Qed.

Lemma applyUpdates_ok (u : Updates) (now : string) (j : SniperJob) :
  ok_job j → ok_updates (desiredDateRanges j) u → ok_job (applyUpdates u now j).
Proof.
  intros Hj Hu r. simpl. destruct (u_bookedRange u) as [[x|]|] eqn:Hb; simpl.
  - intros [= <-]. by apply Hu.
  - intros [=].
  - apply Hj.
Qed.

Lemma Inv_updateJob (job : nat) (u : Updates) (st : State) :
  Inv st →
  (∀ j, heap st !! job = Some j → ok_updates (desiredDateRanges j) u) →
  Inv (updateJob job u st).
Proof.
  intros HI Hu. unfold updateJob.
  set (st1 := set_heap (alter (applyUpdates u (Date_toISOString (clock st))) job) st).
  assert (Inv st1) as HI1.
  { apply (Inv_heap st); try done.
    - by apply stable_alter.
    - apply Forall_alter; [apply HI|]. intros j Hj Hok. apply applyUpdates_ok; auto. }
  apply Inv_notify; [done|]. apply ok_job_deref, HI1.
Qed.

Lemma Inv_incrementAttempts (job : nat) (st : State) :
  Inv st → Inv (set_heap (alter incrementAttempts job) st).
Proof.
  intros HI. apply (Inv_heap st); try done.
  - by apply stable_alter.
  - apply Forall_alter; [apply HI|]. intros j Hj Hok. exact Hok.
Qed.

Lemma Inv_set_disk (l : list SniperJob) (st : State) :
  Inv st → Forall ok_job l → Inv (set_disk (λ _, Some l) st).
Proof.
  intros [Hh Hd Hp He Ht Hti Hj] Hl. split; simpl; try done. by intros l' [= <-].
Qed.

Lemma Inv_saveJobs (s : SaveStage) (r : Reply) (st : State) :
  Inv st → ok_stage s →
  Inv (saveJobs_resume s r st).1
  ∧ match (saveJobs_resume s r st).2 with
    | inl s' => ok_stage s'
    | inr _ => True
    end.
Proof.
  intros HI Hs. destruct s as [|l], r; simpl; try done.
  all: try (split; [done|]; apply ok_jobs_values, HI).
  all: split; [|done]; by apply Inv_set_disk.
Qed.

Lemma Inv_loaded (st : State) (dj : SniperJob) :
  Inv st → ok_job dj → Inv (set_jobs (jobs_set (id dj) (length (heap st))) (alloc dj st)).
Proof.
  intros HI Hdj.
  assert (Inv (alloc dj st)) as HI1.
  { apply (Inv_heap st); try done.
    - apply stable_app.
    - simpl. apply Forall_app. split; [apply HI|]. by repeat constructor. }
  destruct HI1 as [Hh Hd Hp He Ht Hti Hj]. split; simpl; try done.
  simpl in Hj. revert Hj. generalize (jobs st). intros m Hm.
  induction m as [|p m IH]; simpl.
  - repeat constructor. unfold ok_entry. simpl.
    rewrite lookup_app_r, Nat.sub_diag by done. by eexists.
  - inversion Hm as [|? ? Hp1 Hm1]; subst.
    destruct (String.eqb p.1 (id dj)).
    + constructor; [|done]. unfold ok_entry. simpl.
      rewrite lookup_app_r, Nat.sub_diag by done. by eexists.
    + constructor; [done|]. by apply IH.
Qed.

Lemma Inv_jobs_delete (id_ : string) (st : State) :
  Inv st → Inv (set_jobs (jobs_delete id_) st).
Proof.
  intros [Hh Hd Hp He Ht Hti Hj]. split; simpl; try done.
  unfold jobs_delete. apply Forall_forall. intros p Hp'.
  apply list_elem_of_In, filter_In in Hp' as [Hp' _].
  eapply Forall_forall; [exact Hj|]. by apply list_elem_of_In.
Qed.

Lemma jobs_get_ok (id_ : string) (r : nat) (st : State) :
  Inv st → jobs_get id_ (jobs st) = Some r → is_Some (heap st !! r).
Proof.
  intros HI. unfold jobs_get.
  destruct (List.find _ (jobs st)) as [p|] eqn:Hfind; simpl; [|done].
  intros [= <-]. apply find_some in Hfind as [Hin _].
  eapply (Forall_forall (ok_entry (heap st))); [apply HI|]. by apply list_elem_of_In.
Qed.

Lemma Inv_timers (f : gmap string Timer → gmap string Timer) (st : State) :
  Inv st →
  map_Forall (λ _, ok_timer (heap st)) (f (timers st)) →
  Inv (set_timers f st).
Proof. intros [Hh Hd Hp He Ht Hti Hj] Hf. split; simpl; done. Qed.

Lemma Inv_timers_delete (id_ : string) (st : State) :
  Inv st → Inv (set_timers (delete id_) st).
Proof. intros HI. apply Inv_timers; [done|]. apply map_Forall_delete, HI. Qed.

Lemma Inv_timers_clear (id_ : string) (st : State) :
  Inv st → Inv (set_timers (alter clearTimeout id_) st).
Proof.
  intros HI. apply Inv_timers; [done|].
  intros i t.
  destruct (decide (id_ = i)) as [->|Hne].
  - rewrite lookup_alter_eq. destruct (timers st !! i) as [t0|] eqn:Ht0; simpl; [|done].
    intros [= <-]. pose proof (inv_timers st HI i t0 Ht0) as Hok. exact Hok.
  - rewrite lookup_alter_ne by done. apply (inv_timers st HI).
Qed.

Lemma Inv_timers_insert (id_ : string) (t : Timer) (st : State) :
  Inv st → is_Some (heap st !! timer_job t) → Inv (set_timers (<[id_ := t]>) st).
Proof.
  intros HI Ht. apply Inv_timers; [done|]. apply map_Forall_insert_2; [done|apply HI].
Qed.

Lemma Inv_abort (ac : nat) (st : State) : Inv st → Inv (set_engines (alter abort ac) st).
Proof.
  intros [Hh Hd Hp He Ht Hti Hj]. split; simpl; try done.
  apply Forall_alter; [done|]. intros en _ Hen. exact Hen.
Qed.

Lemma Inv_push_task (t : Task) (st : State) :
  Inv st → ok_task (heap st) t → Inv (set_tasks (λ l, l ++ [t]) st).
Proof.
  intros [Hh Hd Hp He Ht Hti Hj] Hok. split; simpl; try done.
  apply Forall_app. split; [done|]. by repeat constructor.
Qed.

Lemma Inv_set_task (i : nat) (t : Task) (st : State) :
  Inv st → ok_task (heap st) t → Inv (set_task i t st).
Proof.
  intros [Hh Hd Hp He Ht Hti Hj] Hok. split; simpl; try done.
  by apply Forall_insert.
Qed.

Lemma Inv_restart (st : State) : Inv st → Inv (restart st).
Proof.
  intros [Hh Hd Hp He Ht Hti Hj]. split; simpl; try done; try by constructor.
Qed.

Lemma Inv_boot (now : Z) (email_ password_ : option string) : Inv (boot now email_ password_).
Proof. split; simpl; try done; try by constructor. Qed.

End InvariantSteps.
(** ** The engine keeps the invariant *)

Lemma focus_deref (st : State) (e r : nat) (d : list DateRange) :
  focus st e r d → desiredDateRanges (deref r st) = d.
Proof. intros [_ (j & Hj & Hd)]. unfold deref. by rewrite Hj. Qed.

Lemma focus_heap (st st' : State) (e r : nat) (d : list DateRange) :
  focus st e r d → stable (heap st) (heap st') → engines st' = engines st →
  focus st' e r d.
Proof.
  intros [Hen (j & Hj & Hd)] Hst Ee. split; [by rewrite Ee|].
  destruct (Hst _ _ Hj) as (j' & Hj' & Hd'). exists j'. split; [done|congruence].
Qed.

Lemma Good_frame (st st' : State) (e r : nat) (d : list DateRange) :
  Good st e r d →
  heap st' = heap st → disk st' = disk st → published st' = published st →
  engines st' = engines st → tasks st' = tasks st → timers st' = timers st →
  jobs st' = jobs st →
  Good st' e r d.
Proof.
  intros [HI Hf] Eh Ed Ep Ee Et Eti Ej. split; [by apply (Inv_frame st)|].
  apply (focus_heap st); [done| |done]. rewrite Eh. apply stable_refl.
Qed.

Section EngineInvariant.
Context {platform : Platform}.

Lemma Good_updateJob (st : State) (e r : nat) (d : list DateRange) (u : Updates) :
  Good st e r d → ok_updates d u → Good (updateJob r u st) e r d.
Proof.
  intros [HI Hf] Hu. split.
  - apply Inv_updateJob; [done|]. intros j Hj.
    destruct Hf as [_ (j' & Hj' & Hd)]. assert (j = j') as -> by congruence.
    by rewrite Hd.
  - apply (focus_heap st); [done| |done]. simpl. by apply stable_alter.
Qed.

Lemma Good_incrementAttempts (st : State) (e r : nat) (d : list DateRange) :
  Good st e r d → Good (set_heap (alter incrementAttempts r) st) e r d.
Proof.
  intros [HI Hf]. split; [by apply Inv_incrementAttempts|].
  apply (focus_heap st); [done| |done]. simpl. by apply stable_alter.
Qed.

Lemma Good_set_pc (st : State) (e r : nat) (d : list DateRange) (pc : EnginePc) :
  Good st e r d → ok_pc d pc → Good (set_pc e pc st) e r d.
Proof.
  intros [[Hh Hd Hp He Ht Hti Hj] [(en & Hen & Hr) (j & Hjr & Hjd)]] Hpc. split.
  - split; simpl; try done.
    apply Forall_alter; [done|]. intros en' Hen' _.
    assert (en' = en) as -> by congruence. exists j. simpl. by rewrite Hr, Hjd.
  - split; [|by exists j]. exists {| e_job := e_job en; e_aborted := e_aborted en; e_pc := pc |}.
    split; [|done]. simpl. by rewrite list_lookup_alter_eq, Hen.
Qed.

Lemma Good_saveJobs (st : State) (e r : nat) (d : list DateRange)
    (s : SaveStage) (reply : Reply) :
  Good st e r d → ok_stage s →
  Good (saveJobs_resume s reply st).1 e r d
  ∧ match (saveJobs_resume s reply st).2 with
    | inl s' => ok_stage s'
    | inr _ => True
    end.
Proof.
  intros [HI Hf] Hs. destruct (Inv_saveJobs s reply st HI Hs) as [HI' Hs'].
  split; [|done]. split; [done|].
  apply (focus_heap st); [done| |]; destruct s, reply; simpl; try done; apply stable_refl.
Qed.

Lemma Good_finally (st : State) (e : nat) (en : Engine) (d : list DateRange) :
  Good st e (e_job en) d → Good (finally_ e en st) e (e_job en) d.
Proof.
  intros HG. unfold finally_.
  set (st1 := set_abortControllers _ st).
  assert (Good st1 e (e_job en) d) as HG1 by (by apply (Good_frame st)).
  destruct (decide _); [by apply Good_set_pc|].
  destruct (browsers st1 !! _); [|by apply Good_set_pc].
  apply Good_set_pc; [|done]. by apply (Good_frame st1).
Qed.

Lemma Good_catch (st : State) (e : nat) (en : Engine) (d : list DateRange) (msg : string) :
  Good st e (e_job en) d → Good (catch_ e en msg st) e (e_job en) d.
Proof.
  intros HG. unfold catch_. destruct (e_aborted en); [by apply Good_finally|].
  apply Good_set_pc; [|done]. apply Good_updateJob; [done|]. apply ok_updates_status.
Qed.

Lemma Good_engine_save (st : State) (e : nat) (en : Engine) (d : list DateRange)
    (s : SaveStage) (reply : Reply) (stage : SaveStage → EnginePc)
    (done : State → State) (throw : string → State → State) :
  Good st e (e_job en) d → ok_stage s →
  (∀ s', ok_stage s' → ok_pc d (stage s')) →
  (∀ st', Good st' e (e_job en) d → Good (done st') e (e_job en) d) →
  (∀ msg st', Good st' e (e_job en) d → Good (throw msg st') e (e_job en) d) →
  Good (engine_save e s reply st stage done throw) e (e_job en) d.
Proof.
  intros HG Hs Hstage Hdone Hthrow. unfold engine_save.
  destruct (Good_saveJobs st e (e_job en) d s reply HG Hs) as [HG' Hs'].
  destruct (saveJobs_resume s reply st) as [st' [s'|[[]|msg]]]; simpl in *.
  - apply Good_set_pc; auto.
  - by apply Hdone.
  - by apply Hthrow.
Qed.

Lemma Good_fallback_loop (st : State) (e : nat) (en : Engine) (d rest : list DateRange) :
  Good st e (e_job en) d → rest ⊆ d →
  Good (fallback_loop e en rest st) e (e_job en) d.
Proof.
  intros HG Hrest. unfold fallback_loop. destruct rest as [|fallbackRange rest].
  - apply Good_set_pc; [|done]. apply Good_updateJob; [done|]. apply ok_updates_status.
  - destruct (e_aborted en); [by apply Good_finally|].
    apply Good_set_pc; [done|]. simpl. split.
    + apply Hrest. by left.
    + intros x Hx. apply Hrest. by right.
Qed.

Lemma Good_after_watch (st : State) (e : nat) (en : Engine) (d : list DateRange)
    (foundRange : option DateRange) :
  Good st e (e_job en) d →
  (∀ r, foundRange = Some r → r ∈ d) →
  Good (after_watch e en foundRange st) e (e_job en) d.
Proof.
  intros HG Hfound. unfold after_watch.
  destruct (e_aborted en); [by apply Good_finally|].
  destruct foundRange as [r|].
  - apply Good_set_pc; [|simpl; auto].
    apply Good_updateJob; [done|]. apply ok_updates_status.
  - apply Good_set_pc; [|done]. apply Good_updateJob; [done|]. apply ok_updates_status.
Qed.

Lemma Good_watch_loop (st : State) (e : nat) (en : Engine) (d : list DateRange)
    (watchDeadline : Z) :
  Good st e (e_job en) d → Good (watch_loop e en watchDeadline st) e (e_job en) d.
Proof.
  intros HG. unfold watch_loop. destruct (_ && _).
  - apply Good_set_pc; [|done]. by apply Good_incrementAttempts.
  - by apply Good_after_watch.
Qed.

Lemma Good_polled (st : State) (e : nat) (en : Engine) (d : list DateRange)
    (watchDeadline : Z) (o : FetchOutcome) :
  Good st e (e_job en) d → Good (polled e en watchDeadline o st) e (e_job en) d.
Proof.
  intros HG. unfold polled.
  destruct (checkAvailability _ _ _ _) as [[r|]|msg] eqn:Hcheck.
  - apply Good_after_watch.
    + apply Good_updateJob; [done|]. apply ok_updates_message.
    + intros x [= <-]. apply checkAvailability_elem in Hcheck.
      by rewrite (focus_deref st e _ d) in Hcheck by apply HG.
  - apply Good_set_pc; [|done]. apply Good_updateJob; [done|]. apply ok_updates_message.
  - apply Good_set_pc; [|done]. apply Good_updateJob; [|apply ok_updates_message].
    apply Good_updateJob; [done|]. apply ok_updates_message.
Qed.

Lemma Good_enter_watch (st : State) (e : nat) (en : Engine) (d : list DateRange) :
  Good st e (e_job en) d → Good (enter_watch e en st) e (e_job en) d.
Proof.
  intros HG. unfold enter_watch. destruct (e_aborted en); [by apply Good_finally|].
  apply Good_set_pc; [|done]. apply Good_updateJob; [done|]. apply ok_updates_status.
Qed.

Lemma Good_wait_for_window (st : State) (e : nat) (en : Engine) (d : list DateRange) :
  Good st e (e_job en) d → Good (wait_for_window e en st) e (e_job en) d.
Proof.
  intros HG. unfold wait_for_window.
  destruct (Date_parse _) as [windowTime|]; [|by apply Good_enter_watch].
  destruct (0 <? _); [|by apply Good_enter_watch].
  apply Good_set_pc; [|done]. apply Good_updateJob; [done|]. apply ok_updates_message.
Qed.

Lemma Good_booked (st : State) (e : nat) (en : Engine) (d : list DateRange)
    (r : DateRange) (fallback : bool) :
  Good st e (e_job en) d → r ∈ d → Good (booked e en r fallback st) e (e_job en) d.
Proof.
  intros HG Hr. unfold booked. apply Good_set_pc; [|done].
  apply Good_updateJob; [done|]. by apply ok_updates_in_cart.
Qed.

Lemma remainingRanges_subseteq (job : SniperJob) (foundRange : DateRange) :
  remainingRanges job foundRange ⊆ desiredDateRanges job.
Proof.
  intros x Hx. unfold remainingRanges in Hx.
  apply list_elem_of_In, filter_In in Hx as [Hx _]. by apply list_elem_of_In.
Qed.

Lemma Good_engine_resume (st : State) (e : nat) (en : Engine) (d : list DateRange)
    (reply : Reply) :
  engines st !! e = Some en →
  Good st e (e_job en) d → ok_pc d (e_pc en) →
  Good (engine_resume e reply st) e (e_job en) d.
Proof.
  intros Hen HG Hpc. unfold engine_resume. rewrite Hen.
  destruct (e_pc en) eqn:Epc; simpl in Hpc; destruct reply; try done.
  all: try (apply Good_engine_save; try done; intros;
            first [ by apply Good_set_pc | by apply Good_catch | by apply Good_finally
                  | by apply Good_watch_loop ]).
  all: try by apply Good_catch.
  all: try (by apply Good_set_pc; [apply (Good_frame st)|]).
  - (* OpeningPage *)
    set (st1 := set_browsers _ st).
    assert (Good st1 e (e_job en) d) as HG1 by (by apply (Good_frame st)).
    destruct (e_aborted en); [by apply Good_finally|by apply Good_set_pc].
  - (* SigningIn *)
    destruct (e_aborted en); [by apply Good_finally|].
    destruct (desiredDateRanges _); [by apply Good_catch|by apply Good_set_pc].
  - (* Navigating *)
    destruct (e_aborted en); [by apply Good_finally|by apply Good_set_pc].
  - by apply Good_wait_for_window.
  - destruct (sleep_settles _ _ _ _) as [[|]|];
      [by apply Good_enter_watch|by apply Good_catch|done].
  - destruct (sleep_settles _ _ _ _) as [[|]|];
      [by apply Good_enter_watch|by apply Good_catch|done].
  - by apply Good_polled.
  - destruct (sleep_settles _ _ _ _) as [[|]|];
      [by apply Good_watch_loop|by apply Good_catch|done].
  - destruct (sleep_settles _ _ _ _) as [[|]|];
      [by apply Good_watch_loop|by apply Good_catch|done].
  - (* BookingSave *)
    destruct Hpc as [Hr Hs]. apply Good_engine_save; try done.
    + intros st' HG'. by apply Good_set_pc.
    + intros msg' st' HG'. by apply Good_catch.
  - destruct Hpc as [Hr Hs]. apply Good_engine_save; try done.
    + intros st' HG'. by apply Good_set_pc.
    + intros msg' st' HG'. by apply Good_catch.
  - (* Claiming *)
    match goal with b : bool |- _ => destruct b end.
    + by apply Good_booked.
    + apply Good_fallback_loop; [done|].
      rewrite <- (focus_deref st e (e_job en) d) by apply HG.
      apply remainingRanges_subseteq.
  - (* FallbackPolling *)
    destruct Hpc as [Hr Hrest].
    destruct (checkAvailability _ _ _ _) as [[r|]|msg].
    + apply Good_set_pc; [|done]. apply Good_updateJob; [done|]. apply ok_updates_message.
    + by apply Good_fallback_loop.
    + by apply Good_catch.
  - (* FallbackClaiming *)
    destruct Hpc as [Hr Hrest]. match goal with b : bool |- _ => destruct b end.
    + by apply Good_booked.
    + by apply Good_fallback_loop.
Qed.

Lemma Inv_engine_resume (st : State) (e : nat) (reply : Reply) :
  Inv st → Inv (engine_resume e reply st).
Proof.
  intros HI. destruct (engines st !! e) as [en|] eqn:Hen.
  - pose proof (Forall_lookup_1 _ _ _ _ (inv_engines st HI) Hen) as (j & Hj & Hpc).
    apply (Good_engine_resume st e en (desiredDateRanges j) reply Hen); [|done].
    split; [done|]. split; eauto.
  - unfold engine_resume. by rewrite Hen.
Qed.

End EngineInvariant.
(** ** The scheduler and the public API keep the invariant *)

Section ApiInvariant.
Context {platform : Platform}.
Variable rev : Revision.

Lemma Inv_updateJob_plain (job : nat) (st : State) (u : Updates) :
  Inv st → u_bookedRange u = None → Inv (updateJob job u st).
Proof. intros HI Hu. apply Inv_updateJob; [done|]. intros j _ r. by rewrite Hu. Qed.

Lemma Inv_start_prewarm (job : nat) (st : State) :
  Inv st → is_Some (heap st !! job) → Inv (start_prewarm job st).
Proof.
  intros HI [j Hj]. unfold start_prewarm.
  apply Inv_updateJob_plain; [|done].
  match goal with |- Inv (set_abortControllers ?f ?s) => apply (Inv_frame s) end; try done.
  destruct HI as [Hh Hd Hp He Ht Hti Hjobs]. split; simpl; try done.
  apply Forall_app. split; [done|]. repeat constructor. exists j. by simpl.
Qed.

Lemma Inv_runSniperJob (job : nat) (st : State) :
  Inv st → is_Some (heap st !! job) → Inv (runSniperJob rev job st).
Proof.
  intros HI Hjob. unfold runSniperJob. destruct rev.
  - destruct (getRecgovCredentials st); [by apply Inv_start_prewarm|].
    by apply Inv_updateJob_plain.
  - destruct (credentials st !! _); [by apply Inv_start_prewarm|].
    by apply Inv_updateJob_plain.
Qed.

Lemma Inv_scheduleJob (job : nat) (st : State) :
  Inv st → is_Some (heap st !! job) → Inv (scheduleJob rev job st).
Proof.
  intros HI Hjob. unfold scheduleJob.
  pose proof (Inv_timers_clear (id (deref job st)) st HI) as HI1.
  destruct (Date_parse _) as [windowTime|]; [|by apply Inv_runSniperJob].
  destruct (0 <? _); [|by apply Inv_runSniperJob].
  by apply Inv_timers_insert.
Qed.

Lemma Inv_timer_fires (id_ : string) (st : State) :
  Inv st → Inv (timer_fires rev id_ st).
Proof.
  intros HI. unfold timer_fires. destruct (timers st !! id_) as [t|] eqn:Ht; [|done].
  destruct (_ && _); [|done].
  apply Inv_runSniperJob; [by apply Inv_timers_delete|].
  apply (inv_timers st HI id_ t Ht).
Qed.

Lemma Inv_cancel_finish (id_ : string) (job : nat) (st : State) :
  Inv st →
  Inv (cancel_finish rev id_ job st).1 ∧ ok_cancel (cancel_finish rev id_ job st).2.
Proof.
  intros HI. unfold cancel_finish. simpl. split; [|done].
  apply Inv_updateJob_plain; [|done]. destruct rev; [done|]. by apply (Inv_frame st).
Qed.

Lemma Inv_cancelJob (id_ : string) (st : State) :
  Inv st → Inv (cancelJob rev id_ st).1 ∧ ok_cancel (cancelJob rev id_ st).2.
Proof.
  intros HI. unfold cancelJob. destruct (jobs_get id_ (jobs st)) as [job|]; [|done].
  pose proof (Inv_timers_delete id_ st HI) as HI1.
  set (st1 := set_timers (delete id_) st) in *.
  set (st2 := match abortControllers st1 !! id_ with
              | Some ac => set_abortControllers (delete id_) (set_engines (alter abort ac) st1)
              | None => st1
              end).
  assert (Inv st2) as HI2.
  { unfold st2. destruct (abortControllers st1 !! id_) as [ac|]; [|done].
    match goal with |- Inv (set_abortControllers ?f ?s) => apply (Inv_frame s) end; try done.
    by apply Inv_abort. }
  destruct (browsers st2 !! id_) as [b|]; [|by apply Inv_cancel_finish].
  simpl. split; [|done]. by apply (Inv_frame st2).
Qed.

Lemma Inv_cancelJob_resume (id_ : string) (pc : CancelPc) (reply : Reply) (st : State) :
  Inv st → ok_cancel pc →
  Inv (cancelJob_resume rev id_ pc reply st).1
  ∧ ok_cancel (cancelJob_resume rev id_ pc reply st).2.
Proof.
  intros HI Hpc. destruct pc as [job|s|c]; simpl.
  - apply Inv_cancel_finish. by apply (Inv_frame st).
  - destruct (Inv_saveJobs s reply st HI Hpc) as [HI' Hs'].
    by destruct (saveJobs_resume s reply st) as [st' [s'|[[]|msg]]].
  - done.
Qed.

Lemma Inv_deleteJob (id_ : string) (st : State) :
  Inv st → Inv (deleteJob rev id_ st).1 ∧ ok_task [] (TDelete id_ (deleteJob rev id_ st).2).
Proof.
  intros HI. unfold deleteJob. destruct (Inv_cancelJob id_ st HI) as [HI' Hc].
  by destruct (cancelJob rev id_ st).
Qed.

Lemma Inv_deleteJob_resume (id_ : string) (pc : DeletePc) (reply : Reply) (st : State) :
  Inv st → ok_task [] (TDelete id_ pc) →
  Inv (deleteJob_resume rev id_ pc reply st).1
  ∧ ok_task [] (TDelete id_ (deleteJob_resume rev id_ pc reply st).2).
Proof.
  intros HI Hpc. destruct pc as [c|s|c]; simpl in Hpc.
  - destruct (Inv_cancelJob_resume id_ c reply st HI Hpc) as [HI' Hc'].
    destruct c as [job|s|[b|msg]]; unfold deleteJob_resume.
    + by destruct (cancelJob_resume rev id_ (CancelClosing job) reply st).
    + by destruct (cancelJob_resume rev id_ (CancelSave s) reply st).
    + split; [|done]. by apply Inv_jobs_delete.
    + done.
  - simpl. destruct (Inv_saveJobs s reply st HI Hpc) as [HI' Hs'].
    by destruct (saveJobs_resume s reply st) as [st' [s'|[[]|msg]]].
  - done.
Qed.

Lemma ok_task_heap_free (h : list SniperJob) (id_ : string) (pc : DeletePc) :
  ok_task [] (TDelete id_ pc) → ok_task h (TDelete id_ pc).
Proof. done. Qed.

Lemma Inv_createJob (req : SniperJobRequest) (uuid localeString : string) (st : State) :
  Inv st → Inv (createJob rev req uuid localeString st).
Proof.
  intros HI. unfold createJob.
  match goal with
  | |- context [set_jobs (jobs_set uuid (length (heap st))) (alloc ?j st)] =>
      pose proof (Inv_loaded st j HI) as HI1; set (job := j) in *
  end.
  assert (id job = uuid) as Hid by done. rewrite Hid in HI1.
  specialize (HI1 ltac:(intros r [=])).
  set (st1 := set_jobs _ _) in *.
  set (st2 := match rev with
              | CredentialTable => set_credentials _ st1
              | EnvCredentials => st1
              end).
  assert (Inv st2) as HI2 by (unfold st2; destruct rev; [done|by apply (Inv_frame st1)]).
  apply Inv_push_task; [done|]. simpl. split; [|done].
  assert (heap st2 = heap st ++ [job]) as -> by (unfold st2; by destruct rev).
  rewrite lookup_app_r, Nat.sub_diag by done. by eexists.
Qed.

Lemma Inv_createJob_resume (t job : nat) (s : SaveStage) (reply : Reply) (st : State) :
  Inv st → ok_task (heap st) (TCreate job s) →
  Inv (createJob_resume rev t job s reply st).
Proof.
  intros HI [Hjob Hs]. unfold createJob_resume.
  destruct (Inv_saveJobs s reply st HI Hs) as [HI' Hs'].
  assert (is_Some (heap (saveJobs_resume s reply st).1 !! job)) as Hjob'
    by (by destruct s, reply).
  destruct (saveJobs_resume s reply st) as [st' [s'|[[]|msg]]]; simpl in *.
  - by apply Inv_set_task.
  - apply Inv_set_task; [|done]. apply Inv_notify.
    + by apply Inv_scheduleJob.
    + apply ok_job_deref. by apply Inv_scheduleJob.
  - by apply Inv_set_task.
Qed.

Lemma Inv_supplyCredentials (id_ email_ password_ : string) (st : State) :
  Inv st → Inv (supplyCredentials rev id_ email_ password_ st).1.
Proof.
  intros HI. unfold supplyCredentials.
  destruct (jobs_get id_ (jobs st)) as [job|] eqn:Hget; [|done]. simpl.
  pose proof (jobs_get_ok id_ job st HI Hget) as Hjob.
  set (st1 := set_credentials _ st).
  assert (Inv st1) as HI1 by (by apply (Inv_frame st)).
  apply Inv_updateJob_plain; [|done].
  destruct (decide _); [|done]. by apply Inv_scheduleJob.
Qed.

Lemma Inv_load_one (st : State) (dj : SniperJob) :
  Inv st → ok_job dj → Inv (load_one rev st dj).
Proof.
  intros HI Hdj. unfold load_one.
  pose proof (Inv_loaded st dj HI Hdj) as HI1.
  set (st1 := set_jobs _ _) in *.
  assert (is_Some (heap st1 !! length (heap st))) as Hr.
  { simpl. rewrite lookup_app_r, Nat.sub_diag by done. by eexists. }
  destruct (decide _); [|done].
  destruct (Date_parse _) as [windowTime|]; [|by apply Inv_updateJob_plain].
  destruct (_ <? _); [|by apply Inv_updateJob_plain].
  destruct rev eqn:Hrev; rewrite <- ?Hrev; [by apply Inv_scheduleJob|].
  destruct (credentials st1 !! id dj); [|by apply Inv_updateJob_plain].
  apply Inv_scheduleJob; [by apply Inv_updateJob_plain|].
  simpl. rewrite list_lookup_alter_eq. destruct Hr as [j Hj]. simpl in Hj. rewrite Hj.
  by eexists.
Qed.

Lemma Inv_load_all (diskJobs : list SniperJob) :
  ∀ st, Inv st → Forall ok_job diskJobs → Inv (fold_left (load_one rev) diskJobs st).
Proof.
  induction diskJobs as [|dj l IH]; intros st HI Hl; simpl; [done|].
  inversion Hl; subst. apply IH; [|done]. by apply Inv_load_one.
Qed.

Lemma Inv_loadAndScheduleJobs_resume (t : nat) (pc : LoadPc) (reply : Reply) (st : State) :
  Inv st → ok_task (heap st) (TLoad pc) →
  Inv (loadAndScheduleJobs_resume rev t pc reply st).
Proof.
  intros HI Hpc. destruct pc as [|s|c]; simpl in *.
  - apply Inv_set_task; [|done]. apply Inv_load_all; [done|].
    destruct reply; try by constructor.
    all: destruct (disk st) as [l|] eqn:Hl; simpl; [by apply (inv_disk st HI)|by constructor].
  - destruct (Inv_saveJobs s reply st HI Hpc) as [HI' Hs'].
    destruct (saveJobs_resume s reply st) as [st' [s'|c]]; simpl in *; by apply Inv_set_task.
  - done.
Qed.

Lemma Inv_task_resume (t : nat) (reply : Reply) (st : State) :
  Inv st → Inv (task_resume rev t reply st).
Proof.
  intros HI. unfold task_resume. destruct (settled reply); [|done].
  destruct (tasks st !! t) as [task|] eqn:Ht; [|done].
  pose proof (Forall_lookup_1 _ _ _ _ (inv_tasks st HI) Ht) as Hok.
  destruct task as [job s|c|id_ pc|id_ pc|pc]; try done.
  - by apply Inv_createJob_resume.
  - destruct (Inv_cancelJob_resume id_ pc reply st HI Hok) as [HI' Hpc'].
    destruct (cancelJob_resume rev id_ pc reply st). by apply Inv_set_task.
  - destruct (Inv_deleteJob_resume id_ pc reply st HI Hok) as [HI' Hpc'].
    destruct (deleteJob_resume rev id_ pc reply st). by apply Inv_set_task.
  - by apply Inv_loadAndScheduleJobs_resume.
Qed.

Lemma Inv_step (ev : Event) (st : State) : Inv st → Inv (step rev ev st).
Proof.
  intros HI. destruct ev; simpl.
  - destruct (0 <=? dt); [|done]. by apply (Inv_frame st).
  - by apply Inv_restart.
  - by apply Inv_createJob.
  - destruct rev eqn:Hrev; [done|]. rewrite <- Hrev. by apply Inv_supplyCredentials.
  - destruct (Inv_cancelJob id_ st HI) as [HI' Hpc].
    destruct (cancelJob rev id_ st). by apply Inv_push_task.
  - destruct (Inv_deleteJob id_ st HI) as [HI' Hpc].
    destruct (deleteJob rev id_ st). by apply Inv_push_task.
  - by apply Inv_push_task.
  - by apply Inv_timer_fires.
  - by apply Inv_engine_resume.
  - by apply Inv_task_resume.
Qed.

Lemma Inv_run (evs : list Event) : ∀ st, Inv st → Inv (run rev evs st).
Proof.
  induction evs as [|ev evs IH]; intros st HI; simpl; [done|].
  apply IH. by apply Inv_step.
Qed.

(** C7.  In every state the system reaches from its start, through any
    sequence of API calls, timer firings, settled awaits, clock ticks and
    restarts, a job whose bookedRange is not null has it among its own
    desiredDateRanges.  This holds of the job objects, of the list that
    getJobs copies, of the jobs saved on disk and of every snapshot handed
    to the subscribers. *)
Theorem bookedRange_among_desired (now : Z) (email_ password_ : option string)
    (evs : list Event) (job : SniperJob) (r : DateRange) :
  let st := run rev evs (boot now email_ password_) in
  job ∈ heap st ∨ job ∈ jobs_values st ∨ job ∈ default [] (disk st) ∨ job ∈ published st →
  bookedRange job = Some r →
  r ∈ desiredDateRanges job.
Proof.
  intros st Hjob Hbooked.
  assert (Inv st) as HI by apply Inv_run, Inv_boot.
  assert (ok_job job) as Hok; [|by apply Hok].
  destruct Hjob as [Hjob|[Hjob|[Hjob|Hjob]]].
  - eapply Forall_forall; [apply (inv_heap st HI)|done].
  - eapply Forall_forall; [apply ok_jobs_values, (inv_heap st HI)|done].
  - destruct (disk st) as [l|] eqn:Hl; simpl in Hjob; [|by inversion Hjob].
    eapply Forall_forall; [by apply (inv_disk st HI)|done].
  - eapply Forall_forall; [apply (inv_published st HI)|done].
Qed.

End ApiInvariant.

(** * Dates in canonical form: the order of the strings is the order of the days *)

Section CanonicalDates.
Import Iso8601.

Lemma days_in_month_bounds (y m : Z) : 28 ≤ days_in_month y m ≤ 31.
Proof.
  unfold days_in_month.
  repeat match goal with |- context [if ?b then _ else _] => destruct b end; lia.
Qed.

Lemma days_from_civil_day (y m d d' : Z) :
  d < d' → days_from_civil y m d < days_from_civil y m d'.
Proof. intros. unfold days_from_civil. lia. Qed.

Lemma month_cases (m : Z) :
  1 ≤ m ≤ 12 →
  m = 1 ∨ m = 2 ∨ m = 3 ∨ m = 4 ∨ m = 5 ∨ m = 6 ∨ m = 7 ∨ m = 8 ∨ m = 9 ∨ m = 10
  ∨ m = 11 ∨ m = 12.
Proof. lia. Qed.

(** The last day of a month comes right before the first day of the next. *)
Lemma days_from_civil_next_month (y m : Z) :
  1 ≤ m < 12 →
  days_from_civil y m (days_in_month y m) + 1 = days_from_civil y (m + 1) 1.
Proof.
  intros Hm.
  destruct (month_cases m ltac:(lia)) as [->|[->|[->|[->|[->|[->|[->|[->|[->|[->|[->| ->]]]]]]]]]]];
    try lia; unfold days_from_civil, days_in_month; simpl.
  all: try (Z.div_mod_to_equations; lia).
  destruct (Z.eqb_spec (y mod 4) 0), (Z.eqb_spec (y mod 100) 0), (Z.eqb_spec (y mod 400) 0);
    simpl; Z.div_mod_to_equations; lia.
Qed.

(** The last day of a year comes right before the first day of the next. *)
Lemma days_from_civil_next_year (y : Z) :
  days_from_civil y 12 31 + 1 = days_from_civil (y + 1) 1 1.
Proof. unfold days_from_civil. simpl. Z.div_mod_to_equations. lia. Qed.

Lemma days_from_civil_first_le (y m d : Z) :
  1 ≤ m ≤ 12 → 1 ≤ d → days_from_civil y 1 1 ≤ days_from_civil y m d.
Proof.
  intros Hm Hd.
  assert (∀ k : nat, (1 + Z.of_nat k ≤ 12) →
            days_from_civil y 1 1 ≤ days_from_civil y (1 + Z.of_nat k) 1) as Hmonths.
  { induction k as [|k IH]; intros Hk.
    - replace (1 + Z.of_nat 0) with 1 by lia. lia.
    - specialize (IH ltac:(lia)).
      pose proof (days_from_civil_next_month y (1 + Z.of_nat k) ltac:(lia)) as Hnext.
      pose proof (days_in_month_bounds y (1 + Z.of_nat k)) as Hb.
      assert (days_from_civil y (1 + Z.of_nat k) 1
              ≤ days_from_civil y (1 + Z.of_nat k) (days_in_month y (1 + Z.of_nat k))).
      { unfold days_from_civil. lia. }
      replace (1 + Z.of_nat (S k)) with (1 + Z.of_nat k + 1) by lia. lia. }
  specialize (Hmonths (Z.to_nat (m - 1)) ltac:(lia)).
  replace (1 + Z.of_nat (Z.to_nat (m - 1))) with m in Hmonths by lia.
  assert (days_from_civil y m 1 ≤ days_from_civil y m d) by (unfold days_from_civil; lia).
  lia.
Qed.

Lemma days_from_civil_month (y m m' d d' : Z) :
  1 ≤ m → m < m' → m' ≤ 12 → d ≤ days_in_month y m → 1 ≤ d' →
  days_from_civil y m d < days_from_civil y m' d'.
Proof.
  intros Hm Hlt Hm' Hd Hd'.
  assert (∀ k : nat, (m + 1 + Z.of_nat k ≤ 12) →
            days_from_civil y m (days_in_month y m)
            < days_from_civil y (m + 1 + Z.of_nat k) 1) as Hmonths.
  { induction k as [|k IH]; intros Hk.
    - pose proof (days_from_civil_next_month y m ltac:(lia)).
      replace (m + 1 + Z.of_nat 0) with (m + 1) by lia. lia.
    - specialize (IH ltac:(lia)).
      pose proof (days_from_civil_next_month y (m + 1 + Z.of_nat k) ltac:(lia)) as Hnext.
      pose proof (days_in_month_bounds y (m + 1 + Z.of_nat k)) as Hb.
      assert (days_from_civil y (m + 1 + Z.of_nat k) 1
              ≤ days_from_civil y (m + 1 + Z.of_nat k)
                  (days_in_month y (m + 1 + Z.of_nat k))).
      { unfold days_from_civil. lia. }
      replace (m + 1 + Z.of_nat (S k)) with (m + 1 + Z.of_nat k + 1) by lia. lia. }
  specialize (Hmonths (Z.to_nat (m' - m - 1)) ltac:(lia)).
  replace (m + 1 + Z.of_nat (Z.to_nat (m' - m - 1))) with m' in Hmonths by lia.
  assert (days_from_civil y m d ≤ days_from_civil y m (days_in_month y m))
    by (unfold days_from_civil; lia).
  assert (days_from_civil y m' 1 ≤ days_from_civil y m' d') by (unfold days_from_civil; lia).
  lia.
Qed.

Lemma days_from_civil_last_ge (y m d : Z) :
  1 ≤ m ≤ 12 → d ≤ days_in_month y m → days_from_civil y m d ≤ days_from_civil y 12 31.
Proof.
  intros Hm Hd. destruct (decide (m = 12)) as [->|Hne].
  - unfold days_in_month in Hd. simpl in Hd. unfold days_from_civil. lia.
  - pose proof (days_from_civil_month y m 12 d 31). lia.
Qed.

Lemma days_from_civil_year (y y' : Z) :
  y < y' → days_from_civil y 12 31 < days_from_civil y' 1 1.
Proof.
  intros Hlt.
  assert (∀ k : nat, days_from_civil y 12 31 < days_from_civil (y + 1 + Z.of_nat k) 1 1) as H.
  { induction k as [|k IH].
    - pose proof (days_from_civil_next_year y).
      replace (y + 1 + Z.of_nat 0) with (y + 1) by lia. lia.
    - pose proof (days_from_civil_next_year (y + 1 + Z.of_nat k)) as Hnext.
      pose proof (days_from_civil_first_le (y + 1 + Z.of_nat k) 12 31 ltac:(lia) ltac:(lia)).
      replace (y + 1 + Z.of_nat (S k)) with (y + 1 + Z.of_nat k + 1) by lia. lia. }
  specialize (H (Z.to_nat (y' - y - 1))).
  replace (y + 1 + Z.of_nat (Z.to_nat (y' - y - 1))) with y' in H by lia. exact H.
Qed.

(** An earlier date has a smaller day number. *)
Lemma days_from_civil_earlier (y m d y' m' d' : Z) :
  valid_date y m d → valid_date y' m' d' → earlier_date y m d y' m' d' →
  days_from_civil y m d < days_from_civil y' m' d'.
Proof.
  intros (Hy & Hm & Hd) (Hy' & Hm' & Hd') [Hlt|[-> [Hlt|[-> Hlt]]]].
  - pose proof (days_from_civil_last_ge y m d Hm ltac:(lia)).
    pose proof (days_from_civil_year y y' Hlt).
    pose proof (days_from_civil_first_le y' m' d' Hm' ltac:(lia)). lia.
  - apply days_from_civil_month; lia.
  - by apply days_from_civil_day.
Qed.



Lemma digit_spec (c : ascii) (v : Z) :
  digit c = Some v → Z.of_N (N_of_ascii c) = 48 + v ∧ 0 ≤ v ≤ 9.
Proof.
  unfold digit. destruct (_ && _) eqn:Hb; [|discriminate].
  apply andb_true_iff in Hb as [H1 H2]. apply Z.leb_le in H1, H2.
  intros [= <-]. lia.
Qed.

Lemma digit_cases (c : ascii) (v : Z) :
  digit c = Some v →
  c ∈ ["0"; "1"; "2"; "3"; "4"; "5"; "6"; "7"; "8"; "9"]%char.
Proof.
  intros H. apply digit_spec in H as [H Hv].
  assert (c = ascii_of_N (Z.to_N (48 + v))) as ->
    by (by rewrite <- H, N2Z.id, ascii_N_embedding).
  assert (v = 0 ∨ v = 1 ∨ v = 2 ∨ v = 3 ∨ v = 4 ∨ v = 5 ∨ v = 6 ∨ v = 7 ∨ v = 8 ∨ v = 9)
    as Hcases by lia.
  destruct Hcases as [->|[->|[->|[->|[->|[->|[->|[->|[->| ->]]]]]]]]];
    vm_compute; repeat constructor.
Qed.

(** Two digits, then a character that is no digit. *)
Lemma fixed_2 (c0 c1 c : ascii) (v0 v1 : Z) (rest : string) :
  digit c0 = Some v0 → digit c1 = Some v1 → digit c = None →
  fixed 2 (String c0 (String c1 (String c rest))) = Some (10 * v0 + v1, String c rest).
Proof.
  intros D0 D1 Dc. unfold fixed. cbn [number]. rewrite D0, D1. cbn [mbind option_bind].
  rewrite Dc. reflexivity.
Qed.

Lemma fixed_4 (c0 c1 c2 c3 c : ascii) (v0 v1 v2 v3 : Z) (rest : string) :
  digit c0 = Some v0 → digit c1 = Some v1 → digit c2 = Some v2 → digit c3 = Some v3 →
  digit c = None →
  fixed 4 (String c0 (String c1 (String c2 (String c3 (String c rest)))))
  = Some (1000 * v0 + 100 * v1 + 10 * v2 + v3, String c rest).
Proof.
  intros D0 D1 D2 D3 Dc. unfold fixed. cbn [number]. rewrite D0, D1, D2, D3.
  cbn [mbind option_bind]. rewrite Dc. do 2 f_equal. lia.
Qed.

Lemma year_4 (c0 c1 c2 c3 c : ascii) (v0 v1 v2 v3 : Z) (rest : string) :
  digit c0 = Some v0 → digit c1 = Some v1 → digit c2 = Some v2 → digit c3 = Some v3 →
  digit c = None →
  year (String c0 (String c1 (String c2 (String c3 (String c rest)))))
  = Some (1000 * v0 + 100 * v1 + 10 * v2 + v3, String c rest).
Proof.
  intros D0 D1 D2 D3 Dc.
  rewrite <- (fixed_4 c0 c1 c2 c3 c v0 v1 v2 v3 rest D0 D1 D2 D3 Dc).
  apply digit_cases in D0.
  repeat (apply elem_of_cons in D0 as [->|D0]; [reflexivity|]).
  by apply elem_of_nil in D0.
Qed.

(** The days of the years 0000 to 9999 are within the range of Date. *)
Lemma days_from_civil_bounds (y m d : Z) :
  valid_date y m d → -719528 ≤ days_from_civil y m d ≤ 2932896.
Proof.
  intros (Hy & Hm & Hd).
  pose proof (days_from_civil_first_le y m d Hm ltac:(lia)).
  pose proof (days_from_civil_last_ge y m d Hm ltac:(lia)).
  assert (-719528 ≤ days_from_civil y 1 1)
    by (unfold days_from_civil; simpl; Z.div_mod_to_equations; lia).
  assert (days_from_civil y 12 31 ≤ 2932896)
    by (unfold days_from_civil; simpl; Z.div_mod_to_equations; lia).
  lia.
Qed.

(** A calendar date written YYYY-MM-DD, with "T00:00:00.000Z" appended, is
    read as the midnight of that day. *)
Lemma parse_calendar_date (a : string) (y m d : Z) :
  calendar_date a y m d →
  parse (a +:+ "T00:00:00.000Z") = Some (days_from_civil y m d * msPerDay).
Proof.
  intros (c0 & c1 & c2 & c3 & c4 & c5 & c6 & c7 & v0 & v1 & v2 & v3 & v4 & v5 & v6 & v7
          & -> & D0 & D1 & D2 & D3 & D4 & D5 & D6 & D7 & Hy & Hm & Hd & Hvalid).
  pose proof (days_from_civil_bounds y m d Hvalid) as Hbounds.
  pose proof (days_in_month_bounds y m) as Hdim.
  destruct Hvalid as (Hyr & Hmr & Hdr).
  unfold parse, date_text. cbv [String.append].
  rewrite (year_4 c0 c1 c2 c3 "-" v0 v1 v2 v3 _ D0 D1 D2 D3 eq_refl).
  cbn [mbind option_bind]. unfold month_day.
  rewrite (fixed_2 c4 c5 "-" v4 v5 _ D4 D5 eq_refl). cbn [mbind option_bind].
  rewrite <- Hm.
  assert ((1 <=? m) && (m <=? 12) = true) as ->
    by (apply andb_true_iff; split; apply Z.leb_le; lia).
  rewrite (fixed_2 c6 c7 "T" v6 v7 _ D6 D7 eq_refl). cbn [mbind option_bind].
  rewrite <- Hd.
  assert ((1 <=? d) && (d <=? 31) = true) as ->
    by (apply andb_true_iff; split; apply Z.leb_le; lia).
  cbn [mbind option_bind fst snd]. rewrite <- Hy.
  change (Ascii.eqb "T" "T" || Ascii.eqb "T" "t") with true. cbv iota.
  change (time "00:00:00.000Z") with (Some (0, "Z")).
  cbn [mbind option_bind]. change (zone "Z") with (Some (Some 0, "")).
  cbn [mbind option_bind]. change ("" =? "")%string with true. cbv iota.
  cbn [default]. unfold clip, msPerDay, Datatypes.id.
  replace (days_from_civil y m d * 86400000 + 0 - 0 * 60000)
    with (days_from_civil y m d * 86400000) by lia.
  assert ((-8640000000000000 <=? days_from_civil y m d * 86400000)
          && (days_from_civil y m d * 86400000 <=? 8640000000000000) = true) as ->
    by (apply andb_true_iff; split; apply Z.leb_le; lia).
  reflexivity.
Qed.

(** Between two such texts, the order of the strings is the order of the
    dates. *)
Lemma date_text_order (b0 b1 b2 b3 b4 b5 b6 b7 c0 c1 c2 c3 c4 c5 c6 c7 : ascii)
    (w0 w1 w2 w3 w4 w5 w6 w7 v0 v1 v2 v3 v4 v5 v6 v7 : Z) :
  digit b0 = Some w0 → digit b1 = Some w1 → digit b2 = Some w2 → digit b3 = Some w3 →
  digit b4 = Some w4 → digit b5 = Some w5 → digit b6 = Some w6 → digit b7 = Some w7 →
  digit c0 = Some v0 → digit c1 = Some v1 → digit c2 = Some v2 → digit c3 = Some v3 →
  digit c4 = Some v4 → digit c5 = Some v5 → digit c6 = Some v6 → digit c7 = Some v7 →
  String.leb (date_text b0 b1 b2 b3 b4 b5 b6 b7) (date_text c0 c1 c2 c3 c4 c5 c6 c7) = false →
  earlier_date (1000 * v0 + 100 * v1 + 10 * v2 + v3) (10 * v4 + v5) (10 * v6 + v7)
    (1000 * w0 + 100 * w1 + 10 * w2 + w3) (10 * w4 + w5) (10 * w6 + w7).
Proof.
  intros B0 B1 B2 B3 B4 B5 B6 B7 C0 C1 C2 C3 C4 C5 C6 C7.
  apply digit_spec in B0, B1, B2, B3, B4, B5, B6, B7, C0, C1, C2, C3, C4, C5, C6, C7.
  unfold String.leb, date_text. simpl. unfold Ascii.compare.
  change (N_of_ascii "-" ?= N_of_ascii "-")%N with Eq.
  unfold earlier_date.
  destruct (N.compare_spec (N_of_ascii b0) (N_of_ascii c0)); [|discriminate|lia].
  destruct (N.compare_spec (N_of_ascii b1) (N_of_ascii c1)); [|discriminate|lia].
  destruct (N.compare_spec (N_of_ascii b2) (N_of_ascii c2)); [|discriminate|lia].
  destruct (N.compare_spec (N_of_ascii b3) (N_of_ascii c3)); [|discriminate|lia].
  destruct (N.compare_spec (N_of_ascii b4) (N_of_ascii c4)); [|discriminate|lia].
  destruct (N.compare_spec (N_of_ascii b5) (N_of_ascii c5)); [|discriminate|lia].
  destruct (N.compare_spec (N_of_ascii b6) (N_of_ascii c6)); [|discriminate|lia].
  destruct (N.compare_spec (N_of_ascii b7) (N_of_ascii c7)); [discriminate|discriminate|lia].
Qed.

(** The check of the create route orders calendar dates: a range that
    passes it, and whose two dates are calendar dates written YYYY-MM-DD,
    ends a whole number of days after it starts. *)
Lemma valid_range_orders_calendar_dates (range : DateRange) (y m d y' m' d' : Z) :
  calendar_date (startDate range) y m d →
  calendar_date (endDate range) y' m' d' →
  valid_range range = true →
  days_from_civil y m d < days_from_civil y' m' d'.
Proof.
  intros Hs He Hvalid. unfold valid_range in Hvalid.
  apply andb_true_iff in Hvalid as [_ Hle]. apply negb_true_iff in Hle.
  destruct Hs
    as (c0 & c1 & c2 & c3 & c4 & c5 & c6 & c7 & v0 & v1 & v2 & v3 & v4 & v5 & v6 & v7
        & Ea & C0 & C1 & C2 & C3 & C4 & C5 & C6 & C7 & -> & -> & -> & Hvs).
  destruct He
    as (b0 & b1 & b2 & b3 & b4 & b5 & b6 & b7 & w0 & w1 & w2 & w3 & w4 & w5 & w6 & w7
        & Eb & B0 & B1 & B2 & B3 & B4 & B5 & B6 & B7 & -> & -> & -> & Hve).
  rewrite Ea, Eb in Hle.
  pose proof (date_text_order _ _ _ _ _ _ _ _ _ _ _ _ _ _ _ _ _ _ _ _ _ _ _ _ _ _ _ _ _ _ _ _
                B0 B1 B2 B3 B4 B5 B6 B7 C0 C1 C2 C3 C4 C5 C6 C7 Hle) as Hearlier.
  exact (days_from_civil_earlier _ _ _ _ _ _ Hvs Hve Hearlier).
Qed.

(** C10, as the code has it.  On any platform, a range that has no night
    (one of its dates is no date, or its end date is not after its start
    date) expands to the empty list; the all-nights test holds of it
    vacuously, and the range, listed first, is the one selected, whatever
    the table holds: checkAvailability returns it once the request has
    been answered.  The check of the create route compares the two texts.
    With Node's Date, it keeps such a range out when the two dates are
    calendar dates written YYYY-MM-DD: a range that passes it then starts
    before it ends, has the start date as its first night, and is selected
    only if that night is open.  For other texts the check does not keep the
    range out (a day past the end of its month, a month 13). *)
Theorem expandRange_empty_selected_vacuously (range : DateRange) :
  (∀ platform : Platform,
     (∀ start end_,
        Date_parse (startDate range +:+ "T00:00:00.000Z") = Some start →
        Date_parse (endDate range +:+ "T00:00:00.000Z") = Some end_ →
        end_ ≤ start) →
     expandRange range = []
     ∧ (∀ availByDate rest,
          allAvailable availByDate (expandRange range) = true
          ∧ firstAvailable availByDate (range :: rest) = Some range)
     ∧ (∀ permitId_ divisionId_ rest fetch url availability division,
          queryUrl permitId_ (range :: rest) = Returned url →
          fetch url = Body availability →
          availability !! divisionId_ = Some division →
          checkAvailability permitId_ divisionId_ (range :: rest) fetch
          = Returned (Some range)))
  ∧ (∀ y m d y' m' d',
       calendar_date (startDate range) y m d →
       calendar_date (endDate range) y' m' d' →
       valid_range range = true →
       let start := days_from_civil y m d * msPerDay in
       let end_ := days_from_civil y' m' d' * msPerDay in
       parse (startDate range +:+ "T00:00:00.000Z") = Some start
       ∧ parse (endDate range +:+ "T00:00:00.000Z") = Some end_
       ∧ start < end_
       ∧ expandRange (platform := Iso8601.platform) range ≠ []
       ∧ expandRange (platform := Iso8601.platform) range !! O
         = Some (night_text (platform := Iso8601.platform) start)
       ∧ ∀ availByDate ranges,
           firstAvailable (platform := Iso8601.platform) availByDate ranges = Some range →
           night_open availByDate (night_text (platform := Iso8601.platform) start)).
Proof.
  split.
  - intros platform Hle.
    assert (expandRange range = []) as Hnil by (by apply expandRange_empty).
    split; [done|]. split.
    + intros availByDate rest. simpl. by rewrite Hnil.
    + intros permitId_ divisionId_ rest fetch url availability division Hurl Hfetch Hdiv.
      unfold checkAvailability. rewrite Hurl, Hfetch, Hdiv. simpl. by rewrite Hnil.
  - intros y m d y' m' d' Hs He Hvalid. simpl.
    pose proof (parse_calendar_date _ _ _ _ Hs) as Hps.
    pose proof (parse_calendar_date _ _ _ _ He) as Hpe.
    pose proof (valid_range_orders_calendar_dates range _ _ _ _ _ _ Hs He Hvalid) as Hlt.
    assert (days_from_civil y m d * msPerDay < days_from_civil y' m' d' * msPerDay) as Hlt'
      by (unfold msPerDay; lia).
    split; [exact Hps|]. split; [exact Hpe|]. split; [exact Hlt'|].
    destruct (first_night_selected (platform := Iso8601.platform) range _ _ ∅ Hps Hpe Hlt')
      as (Hne & Hfirst & _).
    split; [exact Hne|]. split; [exact Hfirst|].
    intros availByDate ranges Hsel.
    destruct (first_night_selected (platform := Iso8601.platform) range _ _ availByDate
                Hps Hpe Hlt') as (_ & _ & Hopen).
    exact (Hopen ranges Hsel).
Qed.

End CanonicalDates.

(** * The scenario, evaluated *)

Section ScenarioFacts.
Import Scenario.
#[local] Existing Instance Iso8601.platform.

Example expandRange_docstring :
  expandRange july15_18 = ["2026-07-15"; "2026-07-16"; "2026-07-17"].
Proof. vm_compute. reflexivity. Qed.

Example queryUrl_spans_all_ranges :
  queryUrl "4675" [july20_22; july15_18]
  = Returned "https://www.recreation.gov/api/permits/4675/availability?start_date=2026-07-15T00:00:00.000Z&end_date=2026-07-23T00:00:00.000Z&commercial_acct=false".
Proof. vm_compute. reflexivity. Qed.

Example checkAvailability_no_ranges_throws :
  checkAvailability "4675" "12" [] (λ _, answer 3 3) = Thrown "Invalid time value".
Proof. vm_compute. reflexivity. Qed.

Example second_range_selected :
  checkAvailability "4675" "12" [july15_18; july20_22] (λ _, answer 0 3)
  = Returned (Some july20_22).
Proof. vm_compute. reflexivity. Qed.

Example engine_reaches_in_cart :
  let st := run EnvCredentials claim_succeeds configured in
  status (deref 0 st) = in_cart
  ∧ bookedRange (deref 0 st) = Some july15_18
  ∧ attempts (deref 0 st) = 2
  ∧ e_pc <$> engines st !! O = Some Ended
  ∧ browsers st !! "job-1" = Some O
  ∧ chromium st = [O].
Proof. vm_compute. repeat split. Qed.

(** A browser that was launched but not yet registered is out of reach of
    the finally block: when its context cannot be created, the run ends
    failed and the browser has received no close call. *)
Example context_failure_leaves_browser :
  let st := run EnvCredentials context_fails configured in
  status (deref 0 st) = failed
  ∧ message (deref 0 st) = "Sniper failed: Target closed"
  ∧ e_pc <$> engines st !! O = Some Ended
  ∧ browsers st = ∅
  ∧ chromium st = [O].
Proof. vm_compute. repeat split. Qed.

(** A job that never had a session is cancelled without any close call. *)
Example cancel_pending_job :
  let st := run EnvCredentials cancel_while_pending configured in
  status (deref 0 st) = cancelled ∧ timers st = ∅ ∧ chromium st = []
  ∧ tasks st !! 1%nat = Some (TCancel "job-1" (CancelDone (Returned true))).
Proof. vm_compute. repeat split. Qed.

(** After a restart the credential table is empty: the revision that keeps
    it leaves the job pending and asks for the credentials, while the
    revision that reads the environment arms the timer again. *)
Example restart_with_credential_table :
  let st := run CredentialTable restart_before_the_window configured in
  status (deref 0 st) = pending ∧ message (deref 0 st) = awaiting_credentials
  ∧ timers st = ∅ ∧ engines st = [].
Proof. vm_compute. repeat split. Qed.

Example restart_with_environment :
  let st := run EnvCredentials restart_before_the_window configured in
  status (deref 0 st) = pending
  ∧ timers st !! "job-1"
    = Some {| due := t14_00 - PRE_WARM_LEAD_MS; timer_job := 0; active := true |}.
Proof. vm_compute. repeat split. Qed.

(** The create route accepts the ranges of the scenario and rejects a
    reversed or an empty one. *)
Example valid_range_examples :
  valid_range july15_18 = true
  ∧ valid_range {| startDate := "2026-07-18"; endDate := "2026-07-15" |} = false
  ∧ valid_range {| startDate := "2026-07-15"; endDate := "2026-07-15" |} = false.
Proof. vm_compute. repeat split. Qed.

(** The check of the route compares strings and does not look at the form
    of the dates.  A range whose end date is no date at all passes it,
    expands to nothing and is selected on an empty table. *)
Example month_13_passes_the_route :
  valid_range month_13 = true
  ∧ Date_parse (endDate month_13 +:+ "T00:00:00.000Z") = None
  ∧ expandRange month_13 = []
  ∧ checkAvailability "4675" "12" [month_13; january] (λ _, Body {[ "12" := [] ]})
    = Returned (Some month_13).
Proof. vm_compute. repeat split. Qed.

(** C1, at the scenario: the first range has nights without places, the
    second has places on each of its nights, and the second is returned. *)
Lemma checkAvailability_first_fully_available_witness :
  checkAvailability "4675" "12" [july15_18; july20_22] (λ _, answer 0 3)
  = Returned (Some july20_22)
  ∧ has_capacity (places 0 3) july20_22
  ∧ lacks_capacity (places 0 3) july15_18
  ∧ night_of july15_18 "2026-07-15"
  ∧ table_remaining (places 0 3) "2026-07-15" = Some 0
  ∧ night_of july20_22 "2026-07-21"
  ∧ table_remaining (places 0 3) "2026-07-21" = Some 3.
Proof.
  destruct (checkAvailability_first_fully_available "4675" "12" [july15_18; july20_22]
              (λ _, answer 0 3)
              "https://www.recreation.gov/api/permits/4675/availability?start_date=2026-07-15T00:00:00.000Z&end_date=2026-07-23T00:00:00.000Z&commercial_acct=false"
              {[ "12" := places 0 3 ]} (places 0 3))
    as (result & Hret & Hshape & _).
  - vm_compute. reflexivity.
  - reflexivity.
  - vm_compute. reflexivity.
  - assert (checkAvailability "4675" "12" [july15_18; july20_22] (λ _, answer 0 3)
            = Returned (Some july20_22)) as Hrun by (vm_compute; reflexivity).
    rewrite Hrun in Hret. injection Hret as <-.
    destruct Hshape as (earlier & later & Heq & Hfull & _ & Hearlier).
    split; [exact Hrun|]. split; [exact Hfull|]. split.
    { apply Hearlier. destruct earlier as [|r earlier]; [discriminate Heq|].
      injection Heq as <- _. left. }
    split. { exists 1784073600000, 1784332800000, O. vm_compute. repeat split. }
    split; [vm_compute; reflexivity|].
    split. { exists 1784505600000, 1784678400000, 1%nat. vm_compute. repeat split. }
    vm_compute. reflexivity.
Defined.

(** C8, at the range of the docstring: three nights. *)
Lemma expandRange_consecutive_nights_witness :
  Date_parse ("2026-07-15" +:+ "T00:00:00.000Z") = Some 1784073600000
  ∧ Date_parse ("2026-07-18" +:+ "T00:00:00.000Z") = Some 1784332800000
  ∧ 1784073600000 < 1784332800000
  ∧ 1784332800000 - 1784073600000 = 3 * msPerDay
  ∧ length (expandRange july15_18) = 3%nat
  ∧ expandRange july15_18 !! 3%nat = None.
Proof.
  pose proof (expandRange_consecutive_nights july15_18 1784073600000 1784332800000 3)
    as H.
  assert (Date_parse ("2026-07-15" +:+ "T00:00:00.000Z") = Some 1784073600000) as Hs
    by (vm_compute; reflexivity).
  assert (Date_parse ("2026-07-18" +:+ "T00:00:00.000Z") = Some 1784332800000) as He
    by (vm_compute; reflexivity).
  assert (1784073600000 < 1784332800000) as Hlt by lia.
  assert (1784332800000 - 1784073600000 = 3 * msPerDay) as Hn by reflexivity.
  destruct (H Hs He Hlt Hn) as (Hlen & _ & Hend & _).
  repeat split; assumption.
Defined.

(** C10: the claim fails for a range the create route accepts.  The end
    date 2026-03-01 sorts after the start date 2026-02-30, so the range
    passes the check; the start date is read as 2 March, the day after the
    end date, so the range has no night.  It is selected although no night
    of the table has a place left. *)
Lemma validated_range_selected_vacuously :
  valid_range february_30 = true
  ∧ Date_parse (startDate february_30 +:+ "T00:00:00.000Z") = Some 1772409600000
  ∧ Date_parse (endDate february_30 +:+ "T00:00:00.000Z") = Some 1772323200000
  ∧ Date_toISOString 1772409600000 = "2026-03-02T00:00:00.000Z"
  ∧ expandRange february_30 = []
  ∧ (∀ e, e ∈ places 0 0 → remaining e.2 = 0)
  ∧ checkAvailability "4675" "12" [february_30; july20_22] (λ _, answer 0 0)
    = Returned (Some february_30).
Proof.
  vm_compute. repeat split.
  intros e He. repeat (apply elem_of_cons in He as [->|He]; [reflexivity|]).
  by apply elem_of_nil in He.
Qed.

(** C10, as the code has it: at the range that starts on 30 February, and
    at a range of calendar dates that passes the check of the route. *)
Lemma expandRange_empty_selected_vacuously_witness :
  (expandRange february_30 = []
   ∧ firstAvailable ∅ [february_30; july20_22] = Some february_30
   ∧ checkAvailability "4675" "12" [february_30; july20_22] (λ _, answer 0 0)
     = Returned (Some february_30))
  ∧ (calendar_date "2026-07-15" 2026 7 15
     ∧ calendar_date "2026-07-18" 2026 7 18
     ∧ valid_range july15_18 = true
     ∧ Date_parse ("2026-07-15" +:+ "T00:00:00.000Z") = Some 1784073600000
     ∧ Date_parse ("2026-07-18" +:+ "T00:00:00.000Z") = Some 1784332800000
     ∧ expandRange july15_18 !! O = Some "2026-07-15").
Proof.
  pose proof (expandRange_empty_selected_vacuously february_30) as [Hvac _].
  destruct (Hvac Iso8601.platform) as (Hnil & Hfirst & Hcheck).
  { intros start end_ Hs He. vm_compute in Hs, He.
    injection Hs as <-. injection He as <-. lia. }
  split.
  - split; [exact Hnil|]. split; [exact (proj2 (Hfirst ∅ [july20_22]))|].
    apply (Hcheck "4675" "12" [july20_22] (λ _, answer 0 0)
             "https://www.recreation.gov/api/permits/4675/availability?start_date=2026-03-02T00:00:00.000Z&end_date=2026-07-23T00:00:00.000Z&commercial_acct=false"
             {[ "12" := places 0 0 ]} (places 0 0)).
    + vm_compute. reflexivity.
    + reflexivity.
    + vm_compute. reflexivity.
  - assert (calendar_date "2026-07-15" 2026 7 15) as Hs.
    { exists "2"%char, "0"%char, "2"%char, "6"%char, "0"%char, "7"%char, "1"%char, "5"%char,
        2, 0, 2, 6, 0, 7, 1, 5.
      repeat split; try reflexivity; vm_compute; discriminate. }
    assert (calendar_date "2026-07-18" 2026 7 18) as He.
    { exists "2"%char, "0"%char, "2"%char, "6"%char, "0"%char, "7"%char, "1"%char, "8"%char,
        2, 0, 2, 6, 0, 7, 1, 8.
      repeat split; try reflexivity; vm_compute; discriminate. }
    assert (valid_range july15_18 = true) as Hvalid by (vm_compute; reflexivity).
    pose proof (expandRange_empty_selected_vacuously july15_18) as [_ Hcal].
    destruct (Hcal 2026 7 15 2026 7 18 Hs He Hvalid) as (Hps & Hpe & _ & _ & Hnight & _).
    split; [exact Hs|]. split; [exact He|]. split; [exact Hvalid|].
    split; [exact Hps|]. split; [exact Hpe|]. exact Hnight.
Defined.

(** C3: the claim fails where credentials come from the environment.  No
    variable is set; the job is pending with its timer due; the timer fires,
    and the job is failed, not pending. *)
Lemma missing_environment_fails_job :
  let st := run EnvCredentials (to_pending ++ [Tick (58 * 60000)]) (start None None) in
  let st' := step EnvCredentials (TimerFires "job-1") st in
  status (deref 0 st) = pending
  ∧ timers st !! "job-1" = Some {| due := t14_00 - PRE_WARM_LEAD_MS; timer_job := 0; active := true |}
  ∧ clock st = t14_00 - PRE_WARM_LEAD_MS
  ∧ credentials_absent EnvCredentials st (deref 0 st)
  ∧ status (deref 0 st') = failed
  ∧ status (deref 0 st') ≠ pending
  ∧ message (deref 0 st') = missing_env.
Proof. vm_compute. repeat split; [by left|discriminate]. Qed.

(** C3, as the code has it, at the same state. *)
Lemma trigger_without_credentials_witness :
  let st := run EnvCredentials (to_pending ++ [Tick (58 * 60000)]) (start None None) in
  let st' := step EnvCredentials (TimerFires "job-1") st in
  engines st' = engines st ∧ browsers st' = browsers st
  ∧ ∃ job', heap st' !! O = Some job' ∧ status job' ≠ pre_warming ∧ status job' = failed.
Proof.
  intros st st'.
  destruct (trigger_without_credentials EnvCredentials st "job-1"
              {| due := t14_00 - PRE_WARM_LEAD_MS; timer_job := 0; active := true |}
              (deref 0 st))
    as (He & _ & Hb & _ & job' & Hjob' & Hnp & Hf & _).
  - vm_compute. reflexivity.
  - reflexivity.
  - vm_compute. discriminate.
  - vm_compute. reflexivity.
  - vm_compute. reflexivity.
  - vm_compute. by left.
  - split; [exact He|]. split; [exact Hb|]. exists job'. repeat split; assumption.
Defined.



(** A timer cannot wait longer than 2147483647 ms, some 24.8 days: the job
    whose window opens a month ahead gets a timer due one millisecond after
    its creation, and is pre-warming a month early once that timer fires. *)
Example timer_beyond_the_delay_limit :
  let st := run EnvCredentials to_pending_august configured in
  let st' := run EnvCredentials [Tick 1; TimerFires "job-2"] st in
  Date_parse (windowOpensAt (deref 0 st)) = Some august_14_00
  ∧ TIMEOUT_MAX < august_14_00 - PRE_WARM_LEAD_MS - t13_00
  ∧ timers st !! "job-2" = Some {| due := t13_00 + 1; timer_job := 0; active := true |}
  ∧ status (deref 0 st) = pending
  ∧ status (deref 0 st') = pre_warming.
Proof. vm_compute. repeat split. Qed.

(** C2: the code at the failing input.  The claim of the first range has
    failed and the engine re-queries the fallback range; the availability
    source answers HTTP 503; the job, which was booking, is failed.  The same
    answer to a poll of the watch loop leaves the job watching. *)
Theorem fallback_http_error_fails_job :
  let st := run EnvCredentials to_fallback configured in
  let st' := step EnvCredentials (EngineResumes 0 (Fetched (HttpError 503))) st in
  let sw := run EnvCredentials to_polling configured in
  let sw' := step EnvCredentials (EngineResumes 0 (Fetched (HttpError 503))) sw in
  (status (deref 0 st) = booking
   ∧ e_pc <$> engines st !! O = Some (FallbackPolling july20_22 [])
   ∧ status (deref 0 st') = failed
   ∧ message (deref 0 st') = "Sniper failed: HTTP 503")
  ∧ (status (deref 0 sw) = watching
     ∧ e_pc <$> engines sw !! O = Some (Polling (t14_00 + MAX_WATCH_DURATION_MS))
     ∧ status (deref 0 sw') = watching
     ∧ e_pc <$> engines sw' !! O
       = Some (PollSleep (t14_00 + MAX_WATCH_DURATION_MS) true
                 (t14_00 + 1500 + POLL_INTERVAL_MS))).
Proof. vm_compute. repeat split. Qed.

(** C5: the code at the failing input.  cancelJob is called while the
    engine of a watching job sleeps between two polls.  cancelJob calls
    close and awaits it; the abort has rejected the sleep, so the engine runs
    its finally block, still finds the browser in the registry and calls
    close as well.  The job ends cancelled and unregistered, but its browser
    has received two close calls.  The same happens when a poll that is in
    flight comes back, with a range found, while cancelJob awaits its
    close. *)
Theorem cancel_while_sleeping_closes_twice :
  let st := run EnvCredentials to_watching configured in
  let st1 := step EnvCredentials (CallCancelJob "job-1") st in
  let st2 := step EnvCredentials (EngineResumes 0 (Rejected "Aborted")) st1 in
  let st' := run EnvCredentials cancel_while_sleeping configured in
  let sp := run EnvCredentials to_polling configured in
  let sp' := run EnvCredentials cancel_while_polling configured in
  (status (deref 0 st) = watching ∧ browsers st !! "job-1" = Some O ∧ chromium st = [O])
  ∧ (chromium st1 = [1%nat] ∧ browsers st1 !! "job-1" = Some O
     ∧ tasks st1 !! 1%nat = Some (TCancel "job-1" (CancelClosing 0)))
  ∧ (chromium st2 = [2%nat] ∧ e_pc <$> engines st2 !! O = Some Closing)
  ∧ (status (deref 0 st') = cancelled
     ∧ browsers st' !! "job-1" = None
     ∧ e_pc <$> engines st' !! O = Some Ended
     ∧ tasks st' !! 1%nat = Some (TCancel "job-1" (CancelDone (Returned true)))
     ∧ chromium st' = [2%nat])
  ∧ (e_pc <$> engines sp !! O = Some (Polling (t14_00 + MAX_WATCH_DURATION_MS))
     ∧ chromium sp = [O]
     ∧ status (deref 0 sp') = cancelled
     ∧ browsers sp' !! "job-1" = None
     ∧ e_pc <$> engines sp' !! O = Some Ended
     ∧ chromium sp' = [2%nat]).
Proof. vm_compute. repeat split. Qed.

(** C6: the code at the failing input.  cancelJob runs to its end while a
    claim is in flight: the browser is closed and taken out of the registry,
    the job is cancelled.  The claim then reports "booked"; the engine does
    not look at the signal, marks the job in-cart and ends.  The run ends
    in-cart with the session closed and unregistered. *)
Theorem cancel_while_claiming_ends_in_cart :
  let st := run EnvCredentials to_claiming configured in
  let st1 := run EnvCredentials
               [CallCancelJob "job-1"; TaskResumes 1 Resolved;
                TaskResumes 1 Resolved; TaskResumes 1 Resolved] st in
  let st' := run EnvCredentials cancel_while_claiming configured in
  (status (deref 0 st) = booking ∧ e_pc <$> engines st !! O = Some (Claiming july15_18)
   ∧ browsers st !! "job-1" = Some O ∧ chromium st = [O])
  ∧ (status (deref 0 st1) = cancelled ∧ browsers st1 !! "job-1" = None
     ∧ chromium st1 = [1%nat])
  ∧ (e_pc <$> engines st' !! O = Some Ended
     ∧ status (deref 0 st') = in_cart
     ∧ bookedRange (deref 0 st') = Some july15_18
     ∧ browsers st' !! "job-1" = None
     ∧ chromium st' = [1%nat]).
Proof. vm_compute. repeat split. Qed.

(** C7, at the run that ends in-cart. *)
Lemma bookedRange_among_desired_witness :
  let st := run EnvCredentials claim_succeeds configured in
  deref 0 st ∈ heap st
  ∧ bookedRange (deref 0 st) = Some july15_18
  ∧ july15_18 ∈ desiredDateRanges (deref 0 st).
Proof.
  intros st.
  assert (deref 0 st ∈ heap st) as Hin by (vm_compute; left).
  assert (bookedRange (deref 0 st) = Some july15_18) as Hb by (vm_compute; reflexivity).
  split; [exact Hin|]. split; [exact Hb|].
  exact (bookedRange_among_desired EnvCredentials t13_00 (Some "hiker@example.org")
           (Some "secret") claim_succeeds (deref 0 st) july15_18 (or_introl Hin) Hb).
Defined.

(** C9, at an id that no job has. *)
Lemma deleteJob_returns_true_witness :
  let st := run EnvCredentials to_pending configured in
  jobs_get "no-such-job" (jobs st) = None
  ∧ (deleteJob_run EnvCredentials "no-such-job" [Resolved; Resolved; Resolved] st).2
    = DeleteDone (Returned true)
  ∧ delete_route true = (200, DeletedBody true).
Proof.
  intros st.
  assert (jobs_get "no-such-job" (jobs st) = None) as Hnone by (vm_compute; reflexivity).
  destruct (deleteJob_returns_true EnvCredentials st "no-such-job") as (Hres & _ & Hunknown).
  destruct (Hunknown Hnone) as [_ Hrun].
  split; [exact Hnone|]. split; [exact Hrun|].
  exact (proj2 (Hres _ _ Hrun) true eq_refl).
Defined.

End ScenarioFacts.
